(** * Line unwrapping in [files/lines/lines.go]

    A shallow embedding of the Go package [lines] and the properties of
    its line unwrapper.  Go strings are byte sequences, modelled as
    [list ascii]; the slice [lines] is a list read with [!!] and written
    with [<[i:=x]>], with the run-time bounds check of Go made explicit:
    an index out of range ends the computation in [Panics]. *)

From Stdlib Require Import Ascii String.
From stdpp Require Import base option list strings gmap.

Open Scope list_scope.

(** Go's [string]: a sequence of bytes. *)
Abbreviation gostring := (list ascii).

(** A Go string literal. *)
Definition lit (s : string) : gostring := list_ascii_of_string s.

Definition LF : ascii := "010"%char.
Definition CR : ascii := "013"%char.
Definition TAB : ascii := "009"%char.
Definition SP : ascii := " "%char.

(** ** The functions of Go's package [strings] that the code calls *)

Module GoStrings.

Definition inCutset (cutset : gostring) (c : ascii) : bool :=
  bool_decide (c ∈ cutset).

(** [strings.TrimRight(s, cutset)]: [s] without its trailing bytes that
    are in [cutset]. *)
Fixpoint TrimRight (s cutset : gostring) : gostring :=
  match s with
  | [] => []
  | c :: s' =>
      match TrimRight s' cutset with
      | [] => if inCutset cutset c then [] else [c]
      | t => c :: t
      end
  end.

(** [strings.TrimLeft(s, cutset)]: [s] without its leading bytes that
    are in [cutset]. *)
Fixpoint TrimLeft (s cutset : gostring) : gostring :=
  match s with
  | [] => []
  | c :: s' => if inCutset cutset c then TrimLeft s' cutset else s
  end.

(** [strings.HasSuffix]:
    [len(s) >= len(suffix) && s[len(s)-len(suffix):] == suffix]. *)
Definition HasSuffix (s suffix : gostring) : bool :=
  (length suffix <=? length s)
  && bool_decide (drop (length s - length suffix) s = suffix).

(** [strings.TrimSuffix]: [s[:len(s)-len(suffix)]] when [s] has the
    suffix, [s] otherwise. *)
Definition TrimSuffix (s suffix : gostring) : gostring :=
  if HasSuffix s suffix then take (length s - length suffix) s else s.

(** [strings.Split(s, sep)] for a one-byte separator, the only way the
    code calls it: the pieces of [s] between the occurrences of [sep];
    always at least one piece. *)
Fixpoint Split (s : gostring) (sep : ascii) : list gostring :=
  match s with
  | [] => [[]]
  | c :: s' =>
      if bool_decide (c = sep) then [] :: Split s' sep
      else match Split s' sep with
           | l :: ls => (c :: l) :: ls
           | [] => [[c]]
           end
  end.

(** [strings.Join(elems, sep)]. *)
Fixpoint Join (elems : list gostring) (sep : gostring) : gostring :=
  match elems with
  | [] => []
  | [l] => l
  | l :: ls => l ++ sep ++ Join ls sep
  end.

End GoStrings.

Import GoStrings.

(** ** Outcomes of Go code that can panic *)

(** [Returns a]: the function returned [a].  [Panics]: a run-time panic
    (here always an index out of range).  [OutOfFuel] belongs to the
    model only: the [for] loop with no post statement is unrolled a
    bounded number of times, and [unwrapLinesInString_fuel] shows the
    bound is never reached. *)
Inductive outcome (A : Type) : Type :=
  | Returns (a : A)
  | Panics
  | OutOfFuel.
Arguments Returns {A} a.
Arguments Panics {A}.
Arguments OutOfFuel {A}.

Definition bind {A B} (m : outcome A) (k : A → outcome B) : outcome B :=
  match m with
  | Returns a => k a
  | Panics => Panics
  | OutOfFuel => OutOfFuel
  end.

Definition omap {A B} (f : A → B) (m : outcome A) : outcome B :=
  match m with
  | Returns a => Returns (f a)
  | Panics => Panics
  | OutOfFuel => OutOfFuel
  end.

Notation "'do' x <- m ; k" := (bind m (fun x => k))
  (at level 10, x name, m at level 100, k at level 200, only parsing).
Notation "'do' ' p <- m ; k" := (bind m (fun x => match x with p => k end))
  (at level 10, p pattern, m at level 100, k at level 200, only parsing).

(** [lines[i]] as an expression: panics when [i] is out of range. *)
Definition index (lines : list gostring) (i : nat) : outcome gostring :=
  match lines !! i with
  | Some l => Returns l
  | None => Panics
  end.

(** [lines[i] = v] as a statement: panics when [i] is out of range. *)
Definition assign (lines : list gostring) (i : nat) (v : gostring)
  : outcome (list gostring) :=
  if decide (i < length lines) then Returns (<[i:=v]> lines) else Panics.

(** ** The package [lines] *)

(** [const wrap = "\\"]: one backslash. *)
Definition wrap : gostring := lit "\".

(** The cutset [" \r\n\t"] of both [TrimRight] calls. *)
Definition rightCutset : gostring := [SP; CR; LF; TAB].

(** The cutset [" \t"] of the [TrimLeft] call. *)
Definition leftCutset : gostring := [SP; TAB].

Section unwrap.

Variable connector : gostring.

(** Lines 116-120: the forward scan of a continuation run,
<<
    for current := first; strings.HasSuffix(lines[current], connector); {
        lines[next] = strings.TrimRight(lines[next], " \r\n\t")
        current, next, last = current+1, next+1, last+1
    }
>>
    returning the slice and [last] at the exit of the loop. *)
Fixpoint scan (fuel : nat) (lines : list gostring) (current next last : nat)
  : outcome (list gostring * nat) :=
  match fuel with
  | 0 => OutOfFuel
  | S fuel' =>
      do lc <- index lines current ;
      if HasSuffix lc connector then
        do ln <- index lines next ;
        do lines' <- assign lines next (TrimRight ln rightCutset) ;
        scan fuel' lines' (current + 1) (next + 1) (last + 1)
      else Returns (lines, last)
  end.

(** Lines 124-127: [count] iterations of
<<
    for i := first + 1; i <= last; i++ {
        lineBuilder.WriteString(strings.TrimLeft(strings.TrimSuffix(lines[i], connector), " \t"))
        lines[i] = (the empty string)
    }
>>
    from [i], with the builder's content threaded through. *)
Fixpoint build (count : nat) (lines : list gostring) (i : nat)
    (lineBuilder : gostring) : outcome (list gostring * gostring) :=
  match count with
  | 0 => Returns (lines, lineBuilder)
  | S count' =>
      do li <- index lines i ;
      let lineBuilder' :=
        lineBuilder ++ TrimLeft (TrimSuffix li connector) leftCutset in
      do lines' <- assign lines i [] ;
      build count' lines' (i + 1) lineBuilder'
  end.

(** Lines 107-132: the iterations [n], [n+1], ... of
    [for n := range lines], [remaining] of them, and the final
    [return strings.Join(lines, "\n")]. *)
Fixpoint rangeLoop (remaining : nat) (lines : list gostring) (n : nat)
  : outcome gostring :=
  match remaining with
  | 0 => Returns (Join lines [LF])
  | S remaining' =>
      do ln <- index lines n ;
      do lines <- assign lines n (TrimRight ln rightCutset) ;
      do ln <- index lines n ;
      if HasSuffix ln connector then
        if decide (length lines - 1 ≤ n) then
          do ln <- index lines n ;
          do lines <- assign lines n (TrimSuffix ln connector) ;
          Returns (Join lines [LF])
        else
          let first := n in
          do ' (lines, last) <- scan (length lines) lines first (n + 1) n ;
          do lf <- index lines first ;
          do ' (lines, lineBuilder) <-
            build (last - first) lines (first + 1) (TrimSuffix lf connector) ;
          do lines <- assign lines first lineBuilder ;
          rangeLoop remaining' lines (n + 1)
      else rangeLoop remaining' lines (n + 1)
  end.

End unwrap.

(** Lines 104-133:
    [func unwrapLinesInString(text string, connector string) string]. *)
Definition unwrapLinesInString (text connector : gostring) : outcome gostring :=
  let lines := Split text LF in
  rangeLoop connector (length lines) lines 0.

(** ** The unwrapper on a list of lines

    Notions the properties are stated with.  They are read off the loops
    above; [rangeLoop_unwraps] proves that the range loop computes
    [unwraps]. *)

Section lines.

Variable connector : gostring.

(** A line continues onto the next: after the trim of line 108 (or 118)
    it ends with the connector. *)
Definition marked (l : gostring) : bool :=
  HasSuffix (TrimRight l rightCutset) connector.

(** What line 125 appends for the line [l] as it stands in the slice. *)
Definition fragment (l : gostring) : gostring :=
  TrimLeft (TrimSuffix l connector) leftCutset.

(** The line that replaces a run [first :: others] (its terminator last
    in [others]): line 123, then line 125 for each of [others], every
    line as trimmed by lines 108 and 118. *)
Definition joined (first : gostring) (others : list gostring) : gostring :=
  TrimSuffix (TrimRight first rightCutset) connector
  ++ concat (map (λ l, fragment (TrimRight l rightCutset)) others).

(** The lines [pre] before a run do not reach into it: the last of them,
    if any, does not continue. *)
Definition ends_unmarked (pre : list gostring) : Prop :=
  ∀ p, last pre = Some p → marked p = false.

(** The last two lines both continue. *)
Fixpoint dangling (ls : list gostring) : bool :=
  match ls with
  | a :: (b :: rest) as ls' =>
      match rest with
      | [] => marked a && marked b
      | _ => dangling ls'
      end
  | _ => false
  end.

(** [unwraps ls o]: the range loop, entering at the first line of [ls]
    with none of [ls] visited yet, leaves [o] in place of [ls]. *)
Inductive unwraps : list gostring → outcome (list gostring) → Prop :=
  | unwraps_nil : unwraps [] (Returns [])
  | unwraps_plain l rest o :
      marked l = false →
      unwraps rest o →
      unwraps (l :: rest) (omap (cons (TrimRight l rightCutset)) o)
  | unwraps_run r run term post o :
      marked r = true →
      Forall (λ l, marked l = true) run →
      marked term = false →
      unwraps post o →
      unwraps (r :: run ++ term :: post)
        (omap (λ out, joined r (run ++ [term])
                        :: replicate (length run + 1) [] ++ out) o)
  | unwraps_last l :
      marked l = true →
      unwraps [l] (Returns [TrimSuffix (TrimRight l rightCutset) connector])
  | unwraps_dangling r run :
      marked r = true →
      Forall (λ l, marked l = true) run →
      run ≠ [] →
      unwraps (r :: run) Panics.

End lines.

(** ** The file system and the functions that use it *)

(** The functions of [path/filepath] that [tempFile] calls, on Unix. *)
Module GoFilepath.

Definition Separator : ascii := "/"%char.

(** The scan of [filepath.Ext], from the end of the path: the bytes after
    [r] (reversed) are [acc]. *)
Fixpoint extScan (r acc : gostring) : gostring :=
  match r with
  | [] => []
  | c :: r' =>
      if bool_decide (c = Separator) then []
      else if bool_decide (c = "."%char) then c :: acc
      else extScan r' (c :: acc)
  end.

(** [filepath.Ext(path)]: the suffix of the last element of [path] that
    starts at its last dot, empty when it has none. *)
Definition Ext (path : gostring) : gostring := extScan (rev path) [].

(** What follows the last separator of [path]. *)
Fixpoint lastElement (path : gostring) : gostring :=
  match path with
  | [] => []
  | c :: path' =>
      if bool_decide (Separator ∈ path') then lastElement path'
      else if bool_decide (c = Separator) then path'
      else path
  end.

(** [filepath.Base(path)]: the last element of [path], trailing separators
    removed first; ["."] for the empty path, ["/"] for a path of separators
    only. *)
Definition Base (path : gostring) : gostring :=
  if decide (path = []) then lit "."
  else
    let element := lastElement (TrimRight path [Separator]) in
    if decide (element = []) then [Separator] else element.

End GoFilepath.

Import GoFilepath.

(** A call of the logger: severity, format, arguments. *)
Inductive severity : Type := INFO | WARNING.

Record logEntry : Type := LogEntry {
  logSeverity : severity;
  logFormat : gostring;
  logArgs : list gostring
}.

(** The state the package works on: the files by path with their
    contents, the number of open file handles, and the calls of the
    logger, latest first. *)
Record World : Type := mkWorld {
  files : gmap gostring gostring;
  openFiles : nat;
  logged : list logEntry
}.

(** What decides the failures of the operating system, which the code
    does not control. *)
Record OS : Type := mkOS {
  (** [os.Open] refuses the path although the file exists. *)
  openFault : gostring → bool;
  (** [ioutil.ReadAll] fails on the file. *)
  readFault : gostring → bool;
  (** [os.TempDir()]. *)
  tempDir : gostring;
  (** The random part of the name [ioutil.TempFile] gives the file it
      creates for a pattern; [None] when it cannot create a file. *)
  tempRandom : gostring → option gostring;
  (** [WriteString] to the file fails after this many bytes; [None] when
      it writes them all. *)
  writeFault : gostring → option nat
}.

(** An open [*os.File], known by its name. *)
Record File : Type := mkFile { Name : gostring }.

(** A Go value that is an error message or a result: the functions here
    return [(result, nil)] or [(zero value, errors.New(message))]. *)
Inductive fallible (A : Type) : Type :=
  | Ok (a : A)
  | Err (message : gostring).
Arguments Ok {A} a.
Arguments Err {A} message.

Section os.

Variable os : OS.

Definition logf (s : severity) (format : gostring) (args : list gostring)
    (w : World) : World :=
  mkWorld (files w) (openFiles w) (LogEntry s format args :: logged w).

(** [os.Open(path)]. *)
Definition os_Open (path : gostring) (w : World) : option File * World :=
  match files w !! path with
  | Some _ =>
      if openFault os path then (None, w)
      else (Some (mkFile path), mkWorld (files w) (S (openFiles w)) (logged w))
  | None => (None, w)
  end.

(** [f.Close()]. *)
Definition File_Close (f : File) (w : World) : World :=
  mkWorld (files w) (pred (openFiles w)) (logged w).

(** [ioutil.ReadAll(f)]. *)
Definition ioutil_ReadAll (f : File) (w : World) : option gostring :=
  if readFault os (Name f) then None else files w !! Name f.

(** The pattern of [ioutil.TempFile] cut at its last ["*"]: the random
    part of the name goes between the two pieces, and after the pattern
    when it has no ["*"]. *)
Fixpoint prefixAndSuffix (pattern : gostring) : gostring * gostring :=
  match pattern with
  | [] => ([], [])
  | c :: pattern' =>
      if bool_decide ("*"%char ∈ pattern') then
        let '(prefix, suffix) := prefixAndSuffix pattern' in
        (c :: prefix, suffix)
      else if bool_decide (c = "*"%char) then ([], pattern')
      else (pattern, [])
  end.

(** [ioutil.TempFile] with an empty [dir]: a new, empty file in the default
    directory for temporary files. *)
Definition ioutil_TempFile (pattern : gostring) (w : World)
  : option File * World :=
  match tempRandom os pattern with
  | Some random =>
      let '(prefix, suffix) := prefixAndSuffix pattern in
      let name := tempDir os ++ [Separator] ++ prefix ++ random ++ suffix in
      (Some (mkFile name),
       mkWorld (<[name := []]> (files w)) (S (openFiles w)) (logged w))
  | None => (None, w)
  end.

(** [f.WriteString(s)]; [true] when it wrote all of [s]. *)
Definition File_WriteString (f : File) (s : gostring) (w : World)
  : bool * World :=
  let old := default [] (files w !! Name f) in
  match writeFault os (Name f) with
  | None =>
      (true, mkWorld (<[Name f := old ++ s]> (files w)) (openFiles w) (logged w))
  | Some k =>
      (false,
       mkWorld (<[Name f := old ++ take k s]> (files w)) (openFiles w) (logged w))
  end.

(** [os.Remove(name)], its error ignored as the code does. *)
Definition os_Remove (name : gostring) (w : World) : World :=
  mkWorld (delete name (files w)) (openFiles w) (logged w).

(** Lines 68-84: [func readFile(filePath string) (text string, err error)]. *)
Definition readFile (filePath : gostring) (w : World)
  : fallible gostring * World :=
  match os_Open filePath w with
  | (None, w) =>
      let message := lit "Failed to open file: " ++ filePath in
      let w := logf WARNING message [] w in
      (Err message, w)
  | (Some in_, w) =>
      match ioutil_ReadAll in_ w with
      | None =>
          let message := lit "Failed to read from file: " ++ filePath in
          let w := logf WARNING message [] w in
          (Err message, File_Close in_ w)
      | Some b => (Ok b, File_Close in_ w)
      end
  end.

(** Line 90: the pattern of the temporary file's name. *)
Definition tmpFilePattern (filePath : gostring) : gostring :=
  let ext := Ext filePath in
  TrimSuffix (Base filePath) ext ++ lit "*" ++ ext.

(** Lines 86-102:
    [func tempFile(filePath string) (tmpFile *os.File, err error)]. *)
Definition tempFile (filePath : gostring) (w : World)
  : fallible File * World :=
  match ioutil_TempFile (tmpFilePattern filePath) w with
  | (None, w) =>
      let message :=
        lit "Failed to created a temp file: " ++ tmpFilePattern filePath in
      let w := logf WARNING message [] w in
      (Err message, w)
  | (Some tmpFile, w) =>
      let w := logf INFO (lit "Successfuly created temp file %s")
                 [Name tmpFile] w in
      (Ok tmpFile, w)
  end.

(** A Go [func()] value: [None] is the nil function, [Some f] a closure
    with its effect on the world. *)
Definition func : Type := option (World → World).

(** Calling a [func()] value: calling nil panics. *)
Definition call (f : func) (w : World) : outcome World :=
  match f with
  | Some body => Returns (body w)
  | None => Panics
  end.

(** The three results of [Unwrap]. *)
Record results : Type := mkResults {
  newFilePath : gostring;
  cleanUp : func;
  err : option gostring
}.

(** Lines 33-66: [func Unwrap(filePath string)
    (newFilePath string, cleanUp func(), err error)].  A panic of
    [unwrapLinesInString] leaves [Unwrap] with the deferred
    [tmpFile.Close()] run and nothing returned. *)
Definition Unwrap (filePath : gostring) (w : World)
  : outcome results * World :=
  let cleanUp : func := Some (λ w, w) in
  match readFile filePath w with
  | (Err e, w) => (Returns (mkResults [] cleanUp (Some e)), w)
  | (Ok text, w) =>
      match tempFile filePath w with
      | (Err e, w) => (Returns (mkResults [] cleanUp (Some e)), w)
      | (Ok tmpFile, w) =>
          let cleanUp : func := Some (os_Remove (Name tmpFile)) in
          match unwrapLinesInString text wrap with
          | Returns text =>
              match File_WriteString tmpFile text w with
              | (false, w) =>
                  let message :=
                    lit "Failed to write unwrapped text to: " ++ Name tmpFile in
                  let w := logf WARNING message [] w in
                  (Returns (mkResults (Name tmpFile) cleanUp (Some message)),
                   File_Close tmpFile w)
              | (true, w) =>
                  let w := logf INFO
                             (lit "Successfuly unwrapped lines to temp file %s")
                             [Name tmpFile] w in
                  (Returns (mkResults (Name tmpFile) cleanUp None),
                   File_Close tmpFile w)
              end
          | Panics => (Panics, File_Close tmpFile w)
          | OutOfFuel => (OutOfFuel, File_Close tmpFile w)
          end
      end
  end.

End os.

(** An operating system with the given faults, and a world with one
    template in it. *)
Definition faultyOS (read : bool) (random : option gostring)
    (write : option nat) : OS :=
  mkOS (λ _, false) (λ _, read) (lit "/tmp") (λ _, random) (λ _, write).

Definition workingOS : OS := faultyOS false (Some (lit "42")) None.

Definition oneTemplate : World :=
  mkWorld {[ lit "dir/page.tpl" := lit "a \" ++ [LF] ++ lit "b" ]} 0 [].

(** A world whose template ends in two continued lines. *)
Definition danglingTemplate : World :=
  mkWorld {[ lit "dir/page.tpl" := lit "a\" ++ [LF] ++ lit "b\" ]} 0 [].

(** * Proofs *)

(** ** The library functions on the inputs of their documentation *)

Example Split_two_newlines :
  Split (lit "a" ++ [LF; LF] ++ lit "b") LF = [lit "a"; []; lit "b"].
Proof. reflexivity. Qed.

Example Split_empty : Split [] LF = [[]].
Proof. reflexivity. Qed.

Example Join_three : Join [lit "a"; []; lit "c"] [LF] = lit "a" ++ [LF; LF] ++ lit "c".
Proof. reflexivity. Qed.

Example TrimRight_keeps_inner :
  TrimRight (lit "a \ " ++ [TAB; CR]) rightCutset = lit "a \".
Proof. reflexivity. Qed.

Example TrimLeft_tabs : TrimLeft ([TAB; SP] ++ lit "b c") leftCutset = lit "b c".
Proof. reflexivity. Qed.

Example TrimSuffix_once : TrimSuffix (lit "a\\") wrap = lit "a\".
Proof. reflexivity. Qed.

Example Ext_last_element : Ext (lit "a.b/page.old.tpl") = lit ".tpl".
Proof. reflexivity. Qed.

Example Ext_none : Ext (lit "a.b/page") = [].
Proof. reflexivity. Qed.

Example Base_trailing_separators : Base (lit "dir/page.tpl//") = lit "page.tpl".
Proof. reflexivity. Qed.

Example Base_separators_only : Base (lit "//") = lit "/".
Proof. reflexivity. Qed.

Example tmpFilePattern_page : tmpFilePattern (lit "dir/page.tpl") = lit "page*.tpl".
Proof. reflexivity. Qed.

(** ** Facts about the [strings] functions *)

Section strings_facts.

Implicit Types (s t suffix cutset : gostring) (c sep : ascii).

Lemma HasSuffix_nil_r s : HasSuffix s [] = true.
Proof.
  unfold HasSuffix. simpl. rewrite Nat.sub_0_r, drop_all.
  by rewrite bool_decide_eq_true_2.
Qed.

Lemma HasSuffix_nil_l suffix : suffix ≠ [] → HasSuffix [] suffix = false.
Proof. by destruct suffix. Qed.

Lemma HasSuffix_app s suffix : HasSuffix (s ++ suffix) suffix = true.
Proof.
  unfold HasSuffix. rewrite length_app.
  rewrite (proj2 (Nat.leb_le _ _)) by lia.
  replace (length s + length suffix - length suffix) with (length s) by lia.
  rewrite drop_app_length. by rewrite bool_decide_eq_true_2.
Qed.

Lemma HasSuffix_true s suffix :
  HasSuffix s suffix = true ↔ ∃ k, s = k ++ suffix.
Proof.
  split.
  - unfold HasSuffix. intros [Hlen Heq%bool_decide_eq_true]%andb_true_iff.
    exists (take (length s - length suffix) s).
    rewrite <- Heq at 2. by rewrite take_drop.
  - intros [k ->]. apply HasSuffix_app.
Qed.

Lemma TrimSuffix_app s suffix : TrimSuffix (s ++ suffix) suffix = s.
Proof.
  unfold TrimSuffix. rewrite HasSuffix_app, length_app.
  replace (length s + length suffix - length suffix) with (length s) by lia.
  apply take_app_length.
Qed.

Lemma TrimRight_length s cutset : length (TrimRight s cutset) ≤ length s.
Proof.
  induction s as [|a s IH]; simpl; [done|].
  destruct (TrimRight s cutset); [destruct (inCutset cutset a)|];
    simpl in *; lia.
Qed.

Lemma TrimSuffix_length s suffix :
  HasSuffix s suffix = true →
  length (TrimSuffix s suffix) + length suffix = length s.
Proof.
  intros H. unfold TrimSuffix. rewrite H.
  apply HasSuffix_true in H as [k ->].
  rewrite length_take, length_app. lia.
Qed.

Lemma elem_of_TrimRight c s cutset : c ∈ TrimRight s cutset → c ∈ s.
Proof.
  induction s as [|a s IH]; simpl; [done|].
  destruct (TrimRight s cutset) as [|b t] eqn:E.
  - destruct (inCutset cutset a); [by intros ?%elem_of_nil|].
    intros ->%list_elem_of_singleton. left.
  - intros [->|H]%elem_of_cons; [left|right; auto].
Qed.

Lemma elem_of_TrimLeft c s cutset : c ∈ TrimLeft s cutset → c ∈ s.
Proof.
  induction s as [|a s IH]; simpl; [done|].
  destruct (inCutset cutset a); [right; auto|done].
Qed.

Lemma elem_of_TrimSuffix c s suffix : c ∈ TrimSuffix s suffix → c ∈ s.
Proof.
  unfold TrimSuffix. destruct (HasSuffix s suffix); [|done].
  intros (i & Hi & _)%elem_of_take. by eapply list_elem_of_lookup_2.
Qed.

Lemma Split_length s sep : 0 < length (Split s sep).
Proof.
  induction s as [|a s IH]; simpl; [lia|].
  case_bool_decide; simpl; [lia|].
  destruct (Split s sep); simpl in *; lia.
Qed.

Lemma Split_no_sep s sep : Forall (λ l, sep ∉ l) (Split s sep).
Proof.
  induction s as [|a s IH]; simpl.
  - repeat constructor. apply not_elem_of_nil.
  - case_bool_decide as Ha.
    + constructor; [apply not_elem_of_nil|done].
    + destruct (Split s sep) as [|l ls]; [|apply Forall_cons in IH as [Hl Hls]].
      * repeat constructor. intros ?%list_elem_of_singleton. congruence.
      * constructor; [|done].
        intros [?|?]%elem_of_cons; [congruence|done].
Qed.

Lemma Join_Split s sep : Join (Split s sep) [sep] = s.
Proof.
  induction s as [|a s IH]; simpl; [done|].
  case_bool_decide as Ha.
  - subst a. generalize (Split_length s sep).
    destruct (Split s sep) as [|l ls]; simpl in *; [lia|].
    intros _. by rewrite IH.
  - generalize (Split_length s sep).
    destruct (Split s sep) as [|l ls]; simpl in *; [lia|].
    intros _. destruct ls; simpl in *; by rewrite <- IH.
Qed.

Lemma Split_app_no_sep s t sep :
  sep ∉ s → Split (s ++ t) sep
            = match Split t sep with
              | l :: ls => (s ++ l) :: ls
              | [] => [s]
              end.
Proof.
  induction s as [|a s IH]; simpl; intros Hs.
  - generalize (Split_length t sep).
    destruct (Split t sep); simpl; [lia|done].
  - rewrite bool_decide_eq_false_2
      by (intros ->; apply Hs; left).
    rewrite IH by (intros ?; apply Hs; by right).
    by destruct (Split t sep).
Qed.

Lemma Split_Join (elems : list gostring) sep :
  elems ≠ [] → Forall (λ l, sep ∉ l) elems →
  Split (Join elems [sep]) sep = elems.
Proof.
  induction elems as [|l ls IH]; [done|]. intros _ [Hl Hls]%Forall_cons.
  destruct ls as [|l' ls].
  - simpl. rewrite <- (app_nil_r l) at 1.
    rewrite Split_app_no_sep by done. simpl. by rewrite app_nil_r.
  - change (Join (l :: l' :: ls) [sep])
      with (l ++ sep :: Join (l' :: ls) [sep]).
    rewrite Split_app_no_sep by done.
    cbn [Split]. rewrite bool_decide_eq_true_2 by done.
    rewrite IH by done. by rewrite app_nil_r.
Qed.

Lemma TrimRight_idemp s cutset :
  TrimRight (TrimRight s cutset) cutset = TrimRight s cutset.
Proof.
  induction s as [|a s IH]; simpl; [done|].
  destruct (TrimRight s cutset) as [|b t] eqn:E.
  - destruct (inCutset cutset a) eqn:Ea; simpl; [done|]. by rewrite Ea.
  - change (TrimRight (a :: b :: t) cutset)
      with (match TrimRight (b :: t) cutset with
            | [] => if inCutset cutset a then [] else [a]
            | t' => a :: t'
            end).
    by rewrite IH.
Qed.

Lemma TrimRight_none s cutset :
  (∀ c, c ∈ s → c ∉ cutset) → TrimRight s cutset = s.
Proof.
  induction s as [|a s IH]; simpl; intros H; [done|].
  rewrite IH by (intros c Hc; apply H; by right).
  destruct s; [|done]. unfold inCutset.
  rewrite bool_decide_eq_false_2; [done|]. apply H. left.
Qed.

Lemma TrimRight_app s t cutset :
  TrimRight t cutset ≠ [] →
  TrimRight (s ++ t) cutset = s ++ TrimRight t cutset.
Proof.
  intros Ht. induction s as [|a s IH]; simpl; [done|].
  rewrite IH. by destruct s, (TrimRight t cutset).
Qed.

Lemma TrimLeft_length s cutset : length (TrimLeft s cutset) ≤ length s.
Proof.
  induction s as [|a s IH]; simpl; [done|].
  destruct (inCutset cutset a); simpl; lia.
Qed.

Lemma TrimSuffix_length_le s suffix : length (TrimSuffix s suffix) ≤ length s.
Proof.
  unfold TrimSuffix. destruct (HasSuffix s suffix); [|done].
  rewrite length_take. lia.
Qed.

Lemma TrimSuffix_unmarked s suffix :
  HasSuffix s suffix = false → TrimSuffix s suffix = s.
Proof. intros H. unfold TrimSuffix. by rewrite H. Qed.

Lemma Split_single s sep : sep ∉ s → Split s sep = [s].
Proof.
  intros H. rewrite <- (app_nil_r s) at 1.
  rewrite Split_app_no_sep by done. simpl. by rewrite app_nil_r.
Qed.

Lemma Split_app_sep s t sep :
  Split (s ++ sep :: t) sep = Split s sep ++ Split t sep.
Proof.
  induction s as [|a s IH]; simpl.
  - by rewrite bool_decide_eq_true_2.
  - case_bool_decide; rewrite IH; [done|].
    generalize (Split_length s sep). destruct (Split s sep); simpl; [lia|done].
Qed.

Lemma Split_two_lines s sep : sep ∈ s → 1 < length (Split s sep).
Proof.
  intros (s1 & s2 & ->)%list_elem_of_split.
  rewrite Split_app_sep, length_app.
  generalize (Split_length s1 sep) (Split_length s2 sep). lia.
Qed.

Lemma elem_of_Split c l s sep : l ∈ Split s sep → c ∈ l → c ∈ s.
Proof.
  revert l. induction s as [|a s IH]; simpl; intros l Hl Hc.
  - apply list_elem_of_singleton in Hl as ->. done.
  - case_bool_decide.
    + apply elem_of_cons in Hl as [->|Hl]; [by apply elem_of_nil in Hc|].
      right. by eapply IH.
    + destruct (Split s sep) as [|l' ls] eqn:E.
      * apply list_elem_of_singleton in Hl as ->.
        apply list_elem_of_singleton in Hc as ->. left.
      * apply elem_of_cons in Hl as [->|Hl].
        -- apply elem_of_cons in Hc as [->|Hc]; [left|right].
           apply (IH l'); [left|done].
        -- right. apply (IH l); [by right|done].
Qed.

Lemma Join_app (ls1 ls2 : list gostring) (sep : gostring) :
  ls1 ≠ [] → ls2 ≠ [] →
  Join (ls1 ++ ls2) sep = Join ls1 sep ++ sep ++ Join ls2 sep.
Proof.
  intros H1 H2. induction ls1 as [|l ls1 IH]; [done|].
  destruct ls1 as [|l' ls1].
  - simpl. by destruct ls2.
  - change (Join ((l :: l' :: ls1) ++ ls2) sep)
      with (l ++ sep ++ Join ((l' :: ls1) ++ ls2) sep).
    rewrite IH by done.
    change (Join (l :: l' :: ls1) sep) with (l ++ sep ++ Join (l' :: ls1) sep).
    by rewrite <- !app_assoc.
Qed.

Lemma Join_length (ls : list gostring) (sep : gostring) :
  length (Join ls sep)
  = sum_list_with length ls + length sep * (length ls - 1).
Proof.
  induction ls as [|l ls IH]; [simpl; lia|].
  destruct ls as [|l' ls]; [simpl; lia|].
  change (Join (l :: l' :: ls) sep) with (l ++ sep ++ Join (l' :: ls) sep).
  rewrite !length_app, IH. simpl. lia.
Qed.

Lemma elem_of_Join c (ls : list gostring) (sep : gostring) :
  c ∈ Join ls sep → (c ∈ sep ∧ 1 < length ls) ∨ ∃ l, l ∈ ls ∧ c ∈ l.
Proof.
  induction ls as [|l ls IH]; [by intros ?%elem_of_nil|].
  destruct ls as [|l' ls].
  - simpl. intros H. right. exists l. split; [left|done].
  - change (Join (l :: l' :: ls) sep) with (l ++ sep ++ Join (l' :: ls) sep).
    intros [H|[H|H]%elem_of_app]%elem_of_app.
    + right. exists l. split; [left|done].
    + left. split; [done|]. simpl. lia.
    + destruct (IH H) as [[? ?]|(l0 & Hl0 & Hc)].
      * left. split; [done|]. simpl. lia.
      * right. exists l0. split; [by right|done].
Qed.

End strings_facts.

(** ** Slice accesses in the middle of a list *)

Lemma index_middle (front rest : list gostring) (x : gostring) (i : nat) :
  i = length front → index (front ++ x :: rest) i = Returns x.
Proof. intros ->. unfold index. by rewrite list_lookup_middle. Qed.

Lemma index_out (lines : list gostring) (i : nat) :
  length lines ≤ i → index lines i = Panics.
Proof. intros H. unfold index. by rewrite lookup_ge_None_2. Qed.

Lemma assign_middle (front rest : list gostring) (x v : gostring) (i : nat) :
  i = length front →
  assign (front ++ x :: rest) i v = Returns (front ++ v :: rest).
Proof.
  intros ->. unfold assign. rewrite decide_True.
  - f_equal. replace (length front) with (length front + 0) by lia.
    by rewrite insert_app_r.
  - rewrite length_app. simpl. lia.
Qed.

(** ** The loops on a slice split at the index they work at *)

Lemma marked_TrimRight (connector l : gostring) :
  marked connector (TrimRight l rightCutset) = marked connector l.
Proof. unfold marked. by rewrite TrimRight_idemp. Qed.

Lemma joined_length (connector r : gostring) (others : list gostring) :
  length (joined connector r others)
  ≤ length r + sum_list_with length others.
Proof.
  unfold joined. rewrite length_app.
  generalize (TrimSuffix_length_le (TrimRight r rightCutset) connector)
             (TrimRight_length r rightCutset).
  enough (length (concat (map (λ l, fragment connector (TrimRight l rightCutset))
                              others))
          ≤ sum_list_with length others) by lia.
  induction others as [|l others IH]; simpl; [done|].
  rewrite length_app. unfold fragment at 1.
  generalize (TrimLeft_length
                (TrimSuffix (TrimRight l rightCutset) connector) leftCutset)
             (TrimSuffix_length_le (TrimRight l rightCutset) connector)
             (TrimRight_length l rightCutset).
  lia.
Qed.

Lemma joined_blank (connector r : gostring) :
  joined connector r [[]] = TrimSuffix (TrimRight r rightCutset) connector.
Proof.
  unfold joined, fragment. simpl.
  replace (TrimSuffix [] connector) with (@nil ascii).
  - simpl. by rewrite app_nil_r.
  - unfold TrimSuffix. by destruct (HasSuffix [] connector).
Qed.

Section loops.

Variable connector : gostring.

Local Abbreviation marked := (marked connector).
Local Abbreviation fragment := (fragment connector).
Local Abbreviation joined := (joined connector).
Local Abbreviation ends_unmarked := (ends_unmarked connector).
Local Abbreviation dangling := (dangling connector).
Local Abbreviation unwraps := (unwraps connector).

Lemma scan_run (run : list gostring) :
  ∀ (front : list gostring) (h term : gostring) (post : list gostring)
    (fuel last : nat),
    HasSuffix h connector = true →
    Forall (λ l, marked l = true) run →
    marked term = false →
    length run + 1 < fuel →
    scan connector fuel (front ++ h :: run ++ term :: post)
         (length front) (length front + 1) last
    = Returns (front ++ h :: map (λ l, TrimRight l rightCutset) run
                 ++ TrimRight term rightCutset :: post,
               last + length run + 1).
Proof.
  induction run as [|r run IH]; intros front h term post fuel last Hh Hrun Ht Hf.
  - destruct fuel as [|[|fuel]]; simpl in Hf; try lia.
    cbn [scan app]. rewrite (index_middle front) by done. cbn [bind]. rewrite Hh.
    replace (front ++ h :: term :: post) with ((front ++ [h]) ++ term :: post)
      by by rewrite <- app_assoc.
    rewrite (index_middle (front ++ [h])) by (rewrite length_app; simpl; lia).
    cbn [bind].
    rewrite (assign_middle (front ++ [h])) by (rewrite length_app; simpl; lia).
    cbn [bind].
    rewrite (index_middle (front ++ [h])) by (rewrite length_app; simpl; lia).
    cbn [bind]. unfold marked in Ht. rewrite Ht.
    rewrite <- app_assoc. simpl. do 2 f_equal. lia.
  - destruct fuel as [|fuel]; simpl in Hf; try lia.
    apply Forall_cons in Hrun as [Hr Hrun].
    cbn [scan app]. rewrite (index_middle front) by done. cbn [bind]. rewrite Hh.
    replace (front ++ h :: r :: run ++ term :: post)
      with ((front ++ [h]) ++ r :: run ++ term :: post)
      by by rewrite <- app_assoc.
    rewrite (index_middle (front ++ [h])) by (rewrite length_app; simpl; lia).
    cbn [bind].
    rewrite (assign_middle (front ++ [h])) by (rewrite length_app; simpl; lia).
    cbn [bind].
    replace (length front + 1) with (length (front ++ [h]))
      by (rewrite length_app; simpl; lia).
    rewrite IH; [|done..|lia].
    rewrite <- app_assoc. simpl. do 2 f_equal. lia.
Qed.

Lemma scan_dangling (run : list gostring) :
  ∀ (front : list gostring) (h : gostring) (fuel last : nat),
    HasSuffix h connector = true →
    Forall (λ l, marked l = true) run →
    length run < fuel →
    scan connector fuel (front ++ h :: run)
         (length front) (length front + 1) last
    = Panics.
Proof.
  induction run as [|r run IH]; intros front h fuel last Hh Hrun Hf;
    (destruct fuel as [|fuel]; simpl in Hf; [lia|]);
    cbn [scan]; (rewrite (index_middle front) by done); cbn [bind]; rewrite Hh.
  - rewrite index_out; [done|]. rewrite length_app. simpl. lia.
  - apply Forall_cons in Hrun as [Hr Hrun].
    replace (front ++ h :: r :: run) with ((front ++ [h]) ++ r :: run)
      by by rewrite <- app_assoc.
    rewrite (index_middle (front ++ [h])) by (rewrite length_app; simpl; lia).
    cbn [bind].
    rewrite (assign_middle (front ++ [h])) by (rewrite length_app; simpl; lia).
    cbn [bind].
    replace (length front + 1) with (length (front ++ [h]))
      by (rewrite length_app; simpl; lia).
    by rewrite IH; [|done..|lia].
Qed.

Lemma build_mid (mid : list gostring) :
  ∀ (pre post : list gostring) (i : nat) (b : gostring),
    i = length pre →
    build connector (length mid) (pre ++ mid ++ post) i b
    = Returns (pre ++ replicate (length mid) [] ++ post,
               b ++ concat (map fragment mid)).
Proof.
  induction mid as [|x mid IH]; intros pre post i b ->.
  - simpl. by rewrite app_nil_r.
  - cbn [build length app]. rewrite (index_middle pre) by done. cbn [bind].
    rewrite (assign_middle pre) by done. cbn [bind].
    replace (pre ++ [] :: mid ++ post) with ((pre ++ [[]]) ++ mid ++ post)
      by by rewrite <- app_assoc.
    rewrite IH by (rewrite length_app; simpl; lia).
    rewrite <- !app_assoc. done.
Qed.

(** One iteration of the range loop at a line that does not continue. *)
Lemma rangeLoop_unmarked (k : nat) (front rest : list gostring) (l : gostring) :
  marked l = false →
  rangeLoop connector (S k) (front ++ l :: rest) (length front)
  = rangeLoop connector k
      ((front ++ [TrimRight l rightCutset]) ++ rest) (length front + 1).
Proof.
  intros Hl. cbn [rangeLoop].
  rewrite (index_middle front) by done. cbn [bind].
  rewrite (assign_middle front) by done. cbn [bind].
  rewrite (index_middle front) by done. cbn [bind].
  unfold marked in Hl. rewrite Hl. by rewrite <- app_assoc.
Qed.

(** The iteration at the last line when it continues: lines 111-114. *)
Lemma rangeLoop_last (k : nat) (front : list gostring) (l : gostring) :
  marked l = true →
  rangeLoop connector (S k) (front ++ [l]) (length front)
  = Returns
      (Join (front ++ [TrimSuffix (TrimRight l rightCutset) connector]) [LF]).
Proof.
  intros Hl. cbn [rangeLoop].
  rewrite (index_middle front) by done. cbn [bind].
  rewrite (assign_middle front) by done. cbn [bind].
  rewrite (index_middle front) by done. cbn [bind].
  unfold marked in Hl. rewrite Hl. cbv match.
  rewrite decide_True by (rewrite length_app; simpl; lia).
  by rewrite (assign_middle front) by done.
Qed.

(** The iteration at the first line of a run that has a terminator:
    lines 116-129. *)
Lemma rangeLoop_run (k : nat) (front run post : list gostring)
    (r term : gostring) :
  marked r = true →
  Forall (λ l, marked l = true) run →
  marked term = false →
  rangeLoop connector (S k) (front ++ r :: run ++ term :: post) (length front)
  = rangeLoop connector k
      (front ++ joined r (run ++ [term])
         :: replicate (length run + 1) [] ++ post)
      (length front + 1).
Proof.
  intros Hr Hrun Ht. cbn [rangeLoop].
  rewrite (index_middle front) by done. cbn [bind].
  rewrite (assign_middle front) by done. cbn [bind].
  rewrite (index_middle front) by done. cbn [bind].
  unfold marked in Hr. rewrite Hr. cbv match.
  rewrite decide_False
    by (rewrite !length_app; simpl; rewrite length_app; simpl; lia).
  rewrite scan_run; [|done..|]; cycle 1.
  { rewrite !length_app; simpl; rewrite length_app; simpl; lia. }
  cbn [bind]. rewrite (index_middle front) by done. cbn [bind].
  replace (length front + length run + 1 - length front)
    with (length (map (λ l, TrimRight l rightCutset) run
                  ++ [TrimRight term rightCutset]))
    by (rewrite length_app, length_map; simpl; lia).
  replace (front ++ TrimRight r rightCutset
             :: map (λ l, TrimRight l rightCutset) run
             ++ TrimRight term rightCutset :: post)
    with ((front ++ [TrimRight r rightCutset])
            ++ (map (λ l, TrimRight l rightCutset) run
                  ++ [TrimRight term rightCutset]) ++ post)
    by (rewrite <- !app_assoc; done).
  rewrite build_mid by (rewrite length_app; simpl; lia).
  cbn [bind]. rewrite <- app_assoc. cbn [app].
  rewrite (assign_middle front) by done. cbn [bind].
  unfold joined.
  rewrite !map_app, map_map, length_app, length_map. reflexivity.
Qed.

(** The iteration at the first line of a run that reaches the end of the
    slice with two lines or more: line 118 indexes past the end. *)
Lemma rangeLoop_dangling (k : nat) (front run : list gostring) (r : gostring) :
  marked r = true →
  Forall (λ l, marked l = true) run →
  run ≠ [] →
  rangeLoop connector (S k) (front ++ r :: run) (length front) = Panics.
Proof.
  intros Hr Hrun Hne. cbn [rangeLoop].
  rewrite (index_middle front) by done. cbn [bind].
  rewrite (assign_middle front) by done. cbn [bind].
  rewrite (index_middle front) by done. cbn [bind].
  unfold marked in Hr. rewrite Hr. cbv match.
  rewrite decide_False
    by (destruct run; [done|]; rewrite !length_app; simpl; lia).
  rewrite scan_dangling; [done..|].
  rewrite length_app. simpl. lia.
Qed.

Lemma marked_connector (l : gostring) : marked l = false → connector ≠ [].
Proof. unfold marked. intros H ->. by rewrite HasSuffix_nil_r in H. Qed.

Lemma marked_nil : connector ≠ [] → marked [] = false.
Proof. intros H. unfold marked. simpl. by apply HasSuffix_nil_l. Qed.

(** The iterations at lines that line 126 has cleared. *)
Lemma rangeLoop_cleared (m : nat) :
  ∀ (k : nat) (front post : list gostring),
    connector ≠ [] →
    rangeLoop connector (m + k) (front ++ replicate m [] ++ post) (length front)
    = rangeLoop connector k
        ((front ++ replicate m []) ++ post) (length front + m).
Proof.
  induction m as [|m IH]; intros k front post Hc.
  - simpl. by rewrite app_nil_r, Nat.add_0_r.
  - cbn [replicate Nat.add app].
    rewrite rangeLoop_unmarked by by apply marked_nil.
    replace (length front + 1) with (length (front ++ [TrimRight [] rightCutset]))
      by (rewrite length_app; simpl; lia).
    rewrite IH by done. f_equal.
    + simpl. by rewrite <- !app_assoc.
    + rewrite length_app. simpl. lia.
Qed.

(** The range loop computes what [unwraps] describes. *)
Lemma rangeLoop_unwraps (ls : list gostring) (o : outcome (list gostring)) :
  unwraps ls o →
  ∀ front : list gostring,
    rangeLoop connector (length ls) (front ++ ls) (length front)
    = omap (λ out, Join (front ++ out) [LF]) o.
Proof.
  induction 1 as [|l rest o Hl _ IH|r run term post o Hr Hrun Ht _ IH
                  |l Hl|r run Hr Hrun Hne]; intros front.
  - done.
  - cbn [length]. rewrite rangeLoop_unmarked by done.
    rewrite <- app_assoc.
    replace (length front + 1) with (length (front ++ [TrimRight l rightCutset]))
      by (rewrite length_app; simpl; lia).
    rewrite app_assoc, IH. destruct o; simpl; [|done..].
    by rewrite <- app_assoc.
  - cbn [length]. rewrite rangeLoop_run by done.
    rewrite length_app. cbn [length].
    replace (length run + S (length post))
      with ((length run + 1) + length post) by lia.
    set (j := joined r (run ++ [term])).
    replace (front ++ j :: replicate (length run + 1) [] ++ post)
      with ((front ++ [j]) ++ replicate (length run + 1) [] ++ post)
      by by rewrite <- app_assoc.
    replace (length front + 1) with (length (front ++ [j]))
      by (rewrite length_app; simpl; lia).
    rewrite rangeLoop_cleared by by eapply marked_connector.
    replace (length (front ++ [j]) + (length run + 1))
      with (length ((front ++ [j]) ++ replicate (length run + 1) []))
      by (rewrite !length_app, length_replicate; simpl; lia).
    rewrite IH. destruct o; simpl; [|done..].
    by rewrite <- !app_assoc.
  - by apply rangeLoop_last.
  - by apply rangeLoop_dangling.
Qed.

(** Every list of lines starts with a (possibly empty) run of continuing
    lines, which the end of the list or a terminator ends. *)
Lemma run_split (ls : list gostring) :
  ∃ run tail : list gostring,
    ls = run ++ tail ∧ Forall (λ l, marked l = true) run
    ∧ (tail = [] ∨ ∃ term post, tail = term :: post ∧ marked term = false).
Proof.
  induction ls as [|l ls (run & tail & -> & Hrun & Htail)].
  - exists [], []. auto.
  - destruct (marked l) eqn:Hl.
    + exists (l :: run), tail. split; [done|]. split; [by constructor|done].
    + exists [], (l :: run ++ tail). split; [done|]. split; [constructor|].
      right. by exists l, (run ++ tail).
Qed.

(** [unwraps] gives every list of lines an outcome ... *)
Lemma unwraps_total (ls : list gostring) : ∃ o, unwraps ls o.
Proof.
  remember (length ls) as n eqn:Hn.
  revert ls Hn. induction n as [n IH] using lt_wf_ind. intros ls ->.
  destruct ls as [|l ls]; [eexists; constructor|].
  destruct (marked l) eqn:Hl.
  - destruct (run_split ls) as (run & tail & -> & Hrun & [->|(t & post & -> & Ht)]).
    + rewrite app_nil_r. destruct run as [|r' run'].
      * eexists. by apply unwraps_last.
      * eexists. by apply unwraps_dangling.
    + destruct (IH (length post)) with (ls := post) as [o Ho]; [|done|].
      { simpl. rewrite length_app. simpl. lia. }
      eexists. by apply unwraps_run.
  - destruct (IH (length ls)) with (ls := ls) as [o Ho]; [simpl; lia|done|].
    eexists. by apply unwraps_plain.
Qed.

(** ... which is never [OutOfFuel] ... *)
Lemma unwraps_fuel (ls : list gostring) (o : outcome (list gostring)) :
  unwraps ls o → o ≠ OutOfFuel.
Proof. induction 1 as [| ? ? [] | ? ? ? ? [] | |]; simpl; congruence. Qed.

(** ... and keeps the number of lines. *)
Lemma unwraps_length (ls : list gostring) (o : outcome (list gostring)) :
  unwraps ls o → ∀ out, o = Returns out → length out = length ls.
Proof.
  induction 1 as [|l rest o Hl _ IH|r run term post o Hr Hrun Ht _ IH
                  |l Hl|r run Hr Hrun Hne]; intros out Ho.
  - by injection Ho as <-.
  - destruct o as [out'| |]; simplify_eq/=. f_equal. by apply IH.
  - destruct o as [out'| |]; simplify_eq/=. f_equal.
    rewrite !length_app, length_replicate. simpl.
    rewrite (IH out') by done. lia.
  - by injection Ho as <-.
  - done.
Qed.

(** No byte outside the input lines appears in the output lines. *)
Lemma elem_of_concat_map {A} (f : A → gostring) (c : ascii) (ls : list A) :
  c ∈ concat (map f ls) → ∃ l, l ∈ ls ∧ c ∈ f l.
Proof.
  induction ls as [|a ls IH]; simpl; [by intros ?%elem_of_nil|].
  intros [H|H]%elem_of_app; [exists a; split; [left|done]|].
  destruct (IH H) as (l & ? & ?). exists l. split; [by right|done].
Qed.

Lemma elem_of_joined (c : ascii) (first : gostring) (others : list gostring) :
  c ∈ joined first others → c ∈ first ∨ ∃ l, l ∈ others ∧ c ∈ l.
Proof.
  unfold joined. intros [H|H]%elem_of_app.
  - left. by eapply elem_of_TrimRight, elem_of_TrimSuffix.
  - right. apply elem_of_concat_map in H as (l & Hl & Hc).
    exists l. split; [done|].
    by eapply elem_of_TrimRight, elem_of_TrimSuffix, elem_of_TrimLeft.
Qed.

Lemma unwraps_bytes (c : ascii) (ls : list gostring)
    (o : outcome (list gostring)) :
  unwraps ls o →
  ∀ out, o = Returns out →
    Forall (λ l, c ∉ l) ls → Forall (λ l, c ∉ l) out.
Proof.
  induction 1 as [|l rest o Hl _ IH|r run term post o Hr Hrun Ht _ IH
                  |l Hl|r run Hr Hrun Hne]; intros out Ho Hls.
  - by injection Ho as <-.
  - destruct o as [out'| |]; simplify_eq/=.
    apply Forall_cons in Hls as [Hl' Hrest]. constructor; [|by apply IH].
    by intros ?%elem_of_TrimRight.
  - destruct o as [out'| |]; simplify_eq/=.
    apply Forall_cons in Hls as [Hr' Hls].
    apply Forall_app in Hls as [Hrun' Hls].
    apply Forall_cons in Hls as [Ht' Hpost].
    constructor; [|apply Forall_app; split; [|by apply IH]].
    + intros [?|(l & Hl & Hcl)]%elem_of_joined; [done|].
      apply elem_of_app in Hl as [Hl|Hl%list_elem_of_singleton].
      * by eapply (proj1 (Forall_forall _ _) Hrun').
      * by subst l.
    + apply Forall_forall. intros l [-> _]%elem_of_replicate.
      apply not_elem_of_nil.
  - injection Ho as <-. apply Forall_cons in Hls as [Hl' _].
    constructor; [|constructor].
    by intros ?%elem_of_TrimSuffix%elem_of_TrimRight.
  - done.
Qed.

(** *** A run in the middle of the lines *)

Lemma ends_unmarked_app (l1 l2 : list gostring) :
  ends_unmarked (l1 ++ l2) → ends_unmarked l2.
Proof.
  intros H p Hp. apply H. rewrite last_app. by rewrite Hp.
Qed.

Lemma split_at_terminator (run : list gostring) :
  ∀ (term : gostring) (post pre rest : list gostring),
    run ++ term :: post = pre ++ rest →
    Forall (λ l, marked l = true) run →
    marked term = false →
    pre ≠ [] →
    ends_unmarked pre →
    ∃ pre', pre = run ++ term :: pre'.
Proof.
  induction run as [|a run IH]; intros term post pre rest Heq Hrun Ht Hne Hpre.
  - destruct pre as [|b pre]; [done|]. simplify_eq/=. by exists pre.
  - destruct pre as [|b pre]; [done|]. injection Heq as <- Heq.
    apply Forall_cons in Hrun as [Ha Hrun].
    destruct (IH term post pre rest) as [pre' ->]; [done..| | |by eexists].
    + intros ->. specialize (Hpre a eq_refl). congruence.
    + by apply (ends_unmarked_app [a]).
Qed.

Lemma first_terminator_unique (run : list gostring) :
  ∀ (run' post post' : list gostring) (term term' : gostring),
    run ++ term :: post = run' ++ term' :: post' →
    Forall (λ l, marked l = true) run → marked term = false →
    Forall (λ l, marked l = true) run' → marked term' = false →
    run = run' ∧ term = term' ∧ post = post'.
Proof.
  induction run as [|a run IH]; intros run' post post' term term' Heq Hr Ht Hr' Ht';
    destruct run' as [|a' run']; simplify_eq/=.
  - done.
  - apply Forall_cons in Hr' as [? _]. congruence.
  - apply Forall_cons in Hr as [? _]. congruence.
  - apply Forall_cons in Hr as [_ Hr]. apply Forall_cons in Hr' as [_ Hr'].
    destruct (IH run' post post' term term') as (-> & -> & ->); done.
Qed.

(** A terminated run that starts where no run is under way is replaced by
    its joined line and empty lines, in place. *)
Lemma unwraps_run_replaced (ls : list gostring) (o : outcome (list gostring)) :
  unwraps ls o →
  ∀ (pre : list gostring) (r : gostring) (run : list gostring)
    (term : gostring) (post out : list gostring),
    ls = pre ++ r :: run ++ term :: post →
    o = Returns out →
    ends_unmarked pre →
    marked r = true → Forall (λ l, marked l = true) run → marked term = false →
    ∃ before after : list gostring,
      out = before ++ joined r (run ++ [term])
              :: replicate (length run + 1) [] ++ after
      ∧ length before = length pre ∧ length after = length post.
Proof.
  induction 1 as [|l rest o Hl Hrest IH|r0 run0 term0 post0 o Hr0 Hrun0 Ht0 Hpost0 IH
                  |l Hl|r0 run0 Hr0 Hrun0 Hne];
    intros pre r run term post out Heq Ho Hpre Hr Hrun Ht.
  - by destruct pre.
  - destruct o as [out'| |]; [|done..]. injection Ho as <-.
    destruct pre as [|p pre]; injection Heq as -> ->; [congruence|].
    assert (ends_unmarked pre) as Hpre' by by apply (ends_unmarked_app [p]).
    destruct (IH pre r run term post out' eq_refl eq_refl Hpre' Hr Hrun Ht)
      as (before & after & -> & Hb & Ha).
    exists (TrimRight p rightCutset :: before), after. simpl. auto.
  - destruct o as [out'| |]; [|done..]. injection Ho as <-.
    destruct pre as [|p pre]; injection Heq as -> Heq.
    + destruct (first_terminator_unique run0 run post0 post term0 term)
        as (-> & -> & ->); [done..|].
      exists [], out'. split; [done|]. split; [done|].
      by eapply unwraps_length.
    + destruct (split_at_terminator run0 term0 post0 pre
                  (r :: run ++ term :: post)) as [pre' ->]; [done..| | |].
      * intros ->. specialize (Hpre p eq_refl). congruence.
      * by apply (ends_unmarked_app [p]).
      * rewrite <- app_assoc in Heq. simpl in Heq.
        apply app_inv_head in Heq. injection Heq as ->.
        assert (ends_unmarked pre') as Hpre'.
        { apply (ends_unmarked_app (p :: run0 ++ [term0])).
          simpl. by rewrite <- app_assoc. }
        destruct (IH pre' r run term post out' eq_refl eq_refl Hpre' Hr Hrun Ht)
          as (before & after & -> & Hb & Ha).
        exists (joined p (run0 ++ [term0])
                  :: replicate (length run0 + 1) [] ++ before), after.
        split; [simpl; by rewrite <- app_assoc|]. split; [|done].
        simpl. rewrite !length_app, length_replicate. simpl. lia.
  - destruct pre as [|? [|]]; simplify_eq/=; by destruct run.
  - done.
Qed.

(** A continuing last line that no run reaches loses its connector. *)
Lemma unwraps_last_stripped (ls : list gostring) (o : outcome (list gostring)) :
  unwraps ls o →
  ∀ (pre : list gostring) (l : gostring),
    ls = pre ++ [l] → ends_unmarked pre → marked l = true →
    ∃ before : list gostring,
      o = Returns
            (before ++ [TrimSuffix (TrimRight l rightCutset) connector])
      ∧ length before = length pre.
Proof.
  induction 1 as [|l0 rest o Hl0 _ IH|r0 run0 term0 post0 o Hr0 Hrun0 Ht0 _ IH
                  |l0 Hl0|r0 run0 Hr0 Hrun0 Hne];
    intros pre l Heq Hpre Hl.
  - by destruct pre.
  - destruct pre as [|p pre]; injection Heq as -> ->; [congruence|].
    assert (ends_unmarked pre) as Hpre' by by apply (ends_unmarked_app [p]).
    destruct (IH pre l eq_refl Hpre' Hl) as (before & -> & Hb).
    exists (TrimRight p rightCutset :: before). simpl. auto.
  - destruct pre as [|p pre]; injection Heq as -> Heq; [by destruct run0|].
    destruct (split_at_terminator run0 term0 post0 pre [l])
      as [pre' ->]; [done..| | |].
    + intros ->. specialize (Hpre p eq_refl). congruence.
    + by apply (ends_unmarked_app [p]).
    + rewrite <- app_assoc in Heq. simpl in Heq.
      apply app_inv_head in Heq. injection Heq as ->.
      assert (ends_unmarked pre') as Hpre'.
      { apply (ends_unmarked_app (p :: run0 ++ [term0])).
        simpl. by rewrite <- app_assoc. }
      destruct (IH pre' l eq_refl Hpre' Hl) as (before & -> & Hb).
      exists (joined p (run0 ++ [term0])
                :: replicate (length run0 + 1) [] ++ before).
      split; [simpl; by rewrite <- app_assoc|].
      simpl. rewrite !length_app, length_replicate. simpl. lia.
  - destruct pre as [|? [|]]; simplify_eq/=. by exists [].
  - exfalso. destruct pre as [|p pre]; injection Heq as -> ->; [done|].
    destruct (proj2 (last_is_Some (p :: pre))) as [q Hq]; [done|].
    specialize (Hpre q Hq).
    apply last_Some_elem_of in Hq.
    apply elem_of_cons in Hq as [->|Hq]; [congruence|].
    apply Forall_app in Hrun0 as [Hrun0 _].
    rewrite (proj1 (Forall_forall _ _) Hrun0 q Hq) in Hpre. done.
Qed.

(** *** Lines without a continuation *)

(** Lines that the unwrapper returns as they are neither continue nor end
    with a byte that the trim removes. *)
Lemma unwraps_fixed (ls : list gostring) (o : outcome (list gostring)) :
  unwraps ls o →
  o = Returns ls →
  connector ≠ [] →
  Forall (λ l, TrimRight l rightCutset = l ∧ marked l = false) ls.
Proof.
  assert (∀ l, marked l = true →
               TrimSuffix (TrimRight l rightCutset) connector = l →
               connector = []) as Hshorter.
  { intros l Hl Heq. apply TrimSuffix_length in Hl. rewrite Heq in Hl.
    generalize (TrimRight_length l rightCutset).
    destruct connector; [done|]. simpl in Hl. lia. }
  induction 1 as [|l rest o Hl _ IH|r run term post o Hr Hrun Ht _ IH
                  |l Hl|r run Hr Hrun Hne]; intros Ho Hc.
  - constructor.
  - destruct o as [out'| |]; [|done..]. injection Ho as Heq ->.
    constructor; [done|]. by apply IH.
  - exfalso. destruct o as [out'| |]; [|done..]. injection Ho as Hj Hrest.
    destruct run as [|r2 run].
    + injection Hrest as <- _. apply Hc, (Hshorter r Hr).
      by rewrite <- joined_blank.
    + injection Hrest as <- _. apply Forall_cons in Hrun as [H2 _].
      by rewrite marked_nil in H2.
  - exfalso. injection Ho as Heq. by apply Hc, (Hshorter l).
  - done.
Qed.

Lemma unwraps_unmarked (ls : list gostring) :
  Forall (λ l, marked l = false) ls →
  unwraps ls (Returns (map (λ l, TrimRight l rightCutset) ls)).
Proof.
  induction 1 as [|l ls Hl _ IH]; [constructor|].
  by apply (unwraps_plain connector l ls (Returns _)).
Qed.

(** *** When the unwrapper panics *)

Lemma dangling_cons_unmarked (l : gostring) (rest : list gostring) :
  marked l = false → dangling (l :: rest) = dangling rest.
Proof. intros Hl. destruct rest as [|b [|c rest]]; simpl; by rewrite ?Hl. Qed.

Lemma dangling_app_unmarked (pre post : list gostring) (term : gostring) :
  marked term = false → dangling (pre ++ term :: post) = dangling post.
Proof.
  intros Ht. induction pre as [|a pre IH].
  - by apply dangling_cons_unmarked.
  - rewrite <- IH. cbn [app].
    destruct (pre ++ term :: post) as [|x [|y rest]] eqn:E; [done| |done].
    destruct pre as [|? [|]]; simplify_eq/=.
    rewrite Ht. by rewrite andb_false_r.
Qed.

Lemma dangling_all_marked (run : list gostring) :
  ∀ r : gostring,
    run ≠ [] → marked r = true → Forall (λ l, marked l = true) run →
    dangling (r :: run) = true.
Proof.
  induction run as [|b run IH]; intros r Hne Hr Hrun; [done|].
  apply Forall_cons in Hrun as [Hb Hrun].
  destruct run as [|c run]; [simpl; by rewrite Hr, Hb|].
  by apply (IH b).
Qed.

Lemma unwraps_panics (ls : list gostring) (o : outcome (list gostring)) :
  unwraps ls o → o = Panics ↔ dangling ls = true.
Proof.
  induction 1 as [|l rest o Hl _ IH|r run term post o Hr Hrun Ht _ IH
                  |l Hl|r run Hr Hrun Hne].
  - done.
  - rewrite dangling_cons_unmarked by done. rewrite <- IH.
    by destruct o.
  - change (r :: run ++ term :: post) with ((r :: run) ++ term :: post).
    rewrite dangling_app_unmarked by done. rewrite <- IH.
    by destruct o.
  - done.
  - by rewrite dangling_all_marked.
Qed.

(** *** The output of the unwrapper as an input *)

Lemma dangling_before_unmarked (a b : gostring) (rest : list gostring) :
  marked b = false → dangling (a :: b :: rest) = dangling (b :: rest).
Proof.
  intros Hb. destruct rest as [|c rest]; [|done].
  simpl. by rewrite Hb, andb_false_r.
Qed.

Lemma dangling_cleared (n : nat) (out : list gostring) :
  connector ≠ [] → dangling (replicate n [] ++ out) = dangling out.
Proof.
  intros Hc. induction n as [|n IH]; [done|]. cbn [replicate app].
  rewrite dangling_cons_unmarked by by apply marked_nil. done.
Qed.

Lemma unwraps_out_not_dangling (ls : list gostring)
    (o : outcome (list gostring)) :
  unwraps ls o →
  ∀ out, o = Returns out → connector ≠ [] → dangling out = false.
Proof.
  induction 1 as [|l rest o Hl _ IH|r run term post o Hr Hrun Ht _ IH
                  |l Hl|r run Hr Hrun Hne]; intros out Ho Hc.
  - by injection Ho as <-.
  - destruct o as [out'| |]; [|done..]. injection Ho as <-.
    rewrite dangling_cons_unmarked by by rewrite marked_TrimRight.
    by apply IH.
  - destruct o as [out'| |]; [|done..]. injection Ho as <-.
    replace (length run + 1) with (S (length run)) by lia.
    cbn [replicate app].
    rewrite dangling_before_unmarked by by apply marked_nil.
    change ([] :: replicate (length run) [] ++ out')
      with (replicate (S (length run)) [] ++ out').
    rewrite dangling_cleared by done.
    by apply IH.
  - by injection Ho as <-.
  - done.
Qed.

(** *** The size of the output *)

Lemma unwraps_size (ls : list gostring) (o : outcome (list gostring)) :
  unwraps ls o →
  ∀ out, o = Returns out →
    sum_list_with length out ≤ sum_list_with length ls.
Proof.
  induction 1 as [|l rest o Hl _ IH|r run term post o Hr Hrun Ht _ IH
                  |l Hl|r run Hr Hrun Hne]; intros out Ho.
  - by injection Ho as <-.
  - destruct o as [out'| |]; [|done..]. injection Ho as <-. simpl.
    generalize (TrimRight_length l rightCutset) (IH out' eq_refl). lia.
  - destruct o as [out'| |]; [|done..]. injection Ho as <-.
    cbn [sum_list_with]. rewrite !sum_list_with_app. cbn [sum_list_with].
    generalize (joined_length connector r (run ++ [term])) (IH out' eq_refl).
    rewrite sum_list_with_app. cbn [sum_list_with].
    assert (sum_list_with length (replicate (length run + 1) (@nil ascii)) = 0)
      as ->.
    { induction (length run + 1); simpl; lia. }
    lia.
  - injection Ho as <-. simpl.
    generalize (TrimSuffix_length_le (TrimRight l rightCutset) connector)
               (TrimRight_length l rightCutset). lia.
  - done.
Qed.

(** *** A line outside the runs *)

Lemma unwraps_plain_kept (ls : list gostring) (o : outcome (list gostring)) :
  unwraps ls o →
  ∀ (pre : list gostring) (l : gostring) (post out : list gostring),
    ls = pre ++ l :: post →
    o = Returns out →
    ends_unmarked pre →
    marked l = false →
    ∃ before after : list gostring,
      out = before ++ TrimRight l rightCutset :: after
      ∧ length before = length pre ∧ length after = length post.
Proof.
  induction 1 as [|l0 rest o Hl0 Hrest IH
                  |r0 run0 term0 post0 o Hr0 Hrun0 Ht0 Hpost0 IH
                  |l0 Hl0|r0 run0 Hr0 Hrun0 Hne];
    intros pre l post out Heq Ho Hpre Hl.
  - by destruct pre.
  - destruct o as [out'| |]; [|done..]. injection Ho as <-.
    destruct pre as [|p pre]; injection Heq as -> ->.
    + exists [], out'. split; [done|]. split; [done|].
      by eapply unwraps_length.
    + assert (ends_unmarked pre) as Hpre' by by apply (ends_unmarked_app [p]).
      destruct (IH pre l post out' eq_refl eq_refl Hpre' Hl)
        as (before & after & -> & Hb & Ha).
      exists (TrimRight p rightCutset :: before), after. simpl. auto.
  - destruct o as [out'| |]; [|done..]. injection Ho as <-.
    destruct pre as [|p pre]; injection Heq as -> Heq; [congruence|].
    destruct (split_at_terminator run0 term0 post0 pre (l :: post))
      as [pre' ->]; [done..| | |].
    + intros ->. specialize (Hpre p eq_refl). congruence.
    + by apply (ends_unmarked_app [p]).
    + rewrite <- app_assoc in Heq. simpl in Heq.
      apply app_inv_head in Heq. injection Heq as ->.
      assert (ends_unmarked pre') as Hpre'.
      { apply (ends_unmarked_app (p :: run0 ++ [term0])).
        simpl. by rewrite <- app_assoc. }
      destruct (IH pre' l post out' eq_refl eq_refl Hpre' Hl)
        as (before & after & -> & Hb & Ha).
      exists (joined p (run0 ++ [term0])
                :: replicate (length run0 + 1) [] ++ before), after.
      split; [simpl; by rewrite <- app_assoc|]. split; [|done].
      simpl. rewrite !length_app, length_replicate. simpl. lia.
  - destruct pre as [|? [|]]; simplify_eq/=. congruence.
  - done.
Qed.

(** *** Lines put after lines *)

Lemma unwraps_app (pre : list gostring) (oP : outcome (list gostring)) :
  unwraps pre oP →
  ends_unmarked pre →
  ∃ P : list gostring,
    oP = Returns P
    ∧ ∀ (rest : list gostring) (o : outcome (list gostring)),
        unwraps rest o → unwraps (pre ++ rest) (omap (app P) o).
Proof.
  induction 1 as [|l rest0 o0 Hl _ IH|r run term post o0 Hr Hrun Ht _ IH
                  |l Hl|r run Hr Hrun Hne]; intros Hpre.
  - exists []. split; [done|]. intros rest o Ho. by destruct o.
  - destruct IH as (P & -> & IH); [by apply (ends_unmarked_app [l])|].
    exists (TrimRight l rightCutset :: P). split; [done|].
    intros rest o Ho. specialize (IH rest o Ho).
    apply (unwraps_plain connector l) in IH; [|done]. by destruct o.
  - destruct IH as (P & -> & IH).
    { apply (ends_unmarked_app (r :: run ++ [term])).
      simpl. by rewrite <- app_assoc. }
    exists (joined r (run ++ [term]) :: replicate (length run + 1) [] ++ P).
    split; [done|]. intros rest o Ho. specialize (IH rest o Ho).
    apply (unwraps_run connector r run term) in IH; [|done..].
    simpl. rewrite <- app_assoc. simpl.
    destruct o; simpl in *; [|done..]. by rewrite <- app_assoc.
  - specialize (Hpre l eq_refl). congruence.
  - exfalso.
    destruct (proj2 (last_is_Some (r :: run))) as [q Hq]; [done|].
    specialize (Hpre q Hq).
    apply last_Some_elem_of in Hq.
    apply elem_of_cons in Hq as [->|Hq]; [congruence|].
    rewrite (proj1 (Forall_forall _ _) Hrun q Hq) in Hpre. done.
Qed.

(** *** The last two lines *)

Lemma dangling_last_two (ls : list gostring) :
  dangling ls = true
  ↔ ∃ (pre : list gostring) (a b : gostring),
      ls = pre ++ [a; b] ∧ marked a = true ∧ marked b = true.
Proof.
  induction ls as [|x ls IH]; [split; [done|by intros ([|? []] & ? & ? & ? & _)]|].
  destruct ls as [|y [|z ls]].
  - split; [done|]. by intros ([|? [|? []]] & ? & ? & ? & _).
  - simpl. rewrite andb_true_iff. split.
    + intros [? ?]. by exists [], x, y.
    + intros ([|? [|? []]] & a & b & Heq & ? & ?); by simplify_eq/=.
  - change (dangling (x :: y :: z :: ls)) with (dangling (y :: z :: ls)).
    rewrite IH. split.
    + intros (pre & a & b & -> & ? & ?). by exists (x :: pre), a, b.
    + intros ([|x' pre] & a & b & Heq & ? & ?); [done|].
      injection Heq as -> Heq. by exists pre, a, b.
Qed.

End loops.

(** ** The unwrapper on a text *)

Lemma unwrapLinesInString_unwraps (text connector : gostring) :
  ∃ o : outcome (list gostring),
    unwraps connector (Split text LF) o
    ∧ unwrapLinesInString text connector = omap (λ out, Join out [LF]) o.
Proof.
  destruct (unwraps_total connector (Split text LF)) as [o Ho].
  exists o. split; [done|].
  unfold unwrapLinesInString. cbv zeta.
  by apply (rangeLoop_unwraps connector _ o Ho []).
Qed.

Lemma unwrapLinesInString_returns_lines (text connector out : gostring) :
  unwrapLinesInString text connector = Returns out →
  ∃ outl : list gostring,
    unwraps connector (Split text LF) (Returns outl)
    ∧ out = Join outl [LF] ∧ Split out LF = outl.
Proof.
  intros Hout.
  destruct (unwrapLinesInString_unwraps text connector) as (o & Ho & Heq).
  rewrite Hout in Heq. destruct o as [outl| |]; simplify_eq/=.
  exists outl. split; [done|]. split; [done|].
  apply Split_Join.
  - intros ->. apply unwraps_length with (out := []) in Ho; [|done].
    generalize (Split_length text LF). simpl in Ho. lia.
  - eapply unwraps_bytes; [done..|]. apply Split_no_sep.
Qed.

(** The bound on the unrolling of the scan is never reached. *)
Lemma unwrapLinesInString_fuel (text connector : gostring) :
  unwrapLinesInString text connector ≠ OutOfFuel.
Proof.
  destruct (unwrapLinesInString_unwraps text connector) as (o & Ho & ->).
  apply unwraps_fuel in Ho. by destruct o.
Qed.

(** The unwrapper panics exactly when the last two lines both end with the
    connector after the trim. *)
Lemma unwrapLinesInString_panics_iff (text connector : gostring) :
  unwrapLinesInString text connector = Panics
  ↔ dangling connector (Split text LF) = true.
Proof.
  destruct (unwrapLinesInString_unwraps text connector) as (o & Ho & ->).
  rewrite <- (unwraps_panics connector _ o Ho). by destruct o.
Qed.

Lemma unwrapLinesInString_returns (text connector : gostring) :
  dangling connector (Split text LF) = false →
  ∃ out, unwrapLinesInString text connector = Returns out.
Proof.
  intros Hd. destruct (unwrapLinesInString text connector) as [out| |] eqn:E.
  - by exists out.
  - apply unwrapLinesInString_panics_iff in E. congruence.
  - by apply unwrapLinesInString_fuel in E.
Qed.

(** ** Properties of [unwrapLinesInString] *)

(** C1, the statement that holds.  On every text and connector whose last
    two lines do not both end with the connector after the trim (the texts
    on which the unwrapper returns, [unwrapLinesInString_panics_iff]): a run
    of lines that end with the connector after the trim, starting where no
    run is under way (the line before it, if any, does not end with the
    connector) and followed by its terminator, is replaced at its first
    index by [joined]: the first line trimmed on the right and without its
    trailing connector, then each later line through the terminator, trimmed
    on the right -- the terminator as well --, without its trailing
    connector and without its leading spaces and tabs, with nothing in
    between; the other indices of the run, the terminator's included, hold
    the empty string. *)
Theorem run_replaced (text connector : gostring)
    (pre : list gostring) (r : gostring) (run : list gostring)
    (term : gostring) (post : list gostring) :
  dangling connector (Split text LF) = false →
  Split text LF = pre ++ r :: run ++ term :: post →
  (∀ p, last pre = Some p → marked connector p = false) →
  marked connector r = true →
  Forall (λ l, marked connector l = true) run →
  marked connector term = false →
  ∃ (out : gostring) (before after : list gostring),
    unwrapLinesInString text connector = Returns out
    ∧ Split out LF
      = before ++ joined connector r (run ++ [term])
          :: replicate (length run + 1) [] ++ after
    ∧ length before = length pre ∧ length after = length post.
Proof.
  intros Hd Hsplit Hpre Hr Hrun Ht.
  destruct (unwrapLinesInString_returns text connector Hd) as [out Hout].
  exists out.
  destruct (unwrapLinesInString_returns_lines _ _ _ Hout)
    as (outl & Hu & _ & ->).
  destruct (unwraps_run_replaced connector _ _ Hu pre r run term post outl)
    as (before & after & H); [done..|].
  by exists before, after.
Qed.

Lemma run_replaced_witness :
  ∃ (out : gostring) (before after : list gostring),
    unwrapLinesInString
      (lit "x" ++ [LF] ++ lit "a \  " ++ [LF] ++ lit "  b \" ++ [LF]
         ++ lit "  c  " ++ [LF] ++ lit "d") wrap
    = Returns out
    ∧ Split out LF
      = before ++ joined wrap (lit "a \  ") [lit "  b \"; lit "  c  "]
          :: replicate 2 [] ++ after
    ∧ length before = 1 ∧ length after = 1.
Proof.
  apply (run_replaced
           (lit "x" ++ [LF] ++ lit "a \  " ++ [LF] ++ lit "  b \" ++ [LF]
              ++ lit "  c  " ++ [LF] ++ lit "d")
           wrap [lit "x"] (lit "a \  ") [lit "  b \"] (lit "  c  ") [lit "d"]).
  - vm_compute. reflexivity.
  - vm_compute. reflexivity.
  - intros p [= <-]. vm_compute. reflexivity.
  - vm_compute. reflexivity.
  - repeat constructor.
  - vm_compute. reflexivity.
Defined.

(** C1 as it is stated, with the terminator joined as it stands in the
    input (its trailing connector and leading spaces and tabs stripped,
    nothing else), fails: the terminator ["b "] of the run ["a\"] loses its
    trailing space. *)
Lemma run_replaced_counterexample :
  ¬ (∀ (text connector : gostring) (pre : list gostring) (r : gostring)
       (run : list gostring) (term : gostring) (post : list gostring),
        Split text LF = pre ++ r :: run ++ term :: post →
        (∀ p, last pre = Some p → marked connector p = false) →
        marked connector r = true →
        Forall (λ l, marked connector l = true) run →
        marked connector term = false →
        ∃ (out : gostring) (before after : list gostring),
          unwrapLinesInString text connector = Returns out
          ∧ Split out LF
            = before
                ++ (TrimSuffix (TrimRight r rightCutset) connector
                    ++ concat
                         (map (λ l, fragment connector (TrimRight l rightCutset))
                              run)
                    ++ TrimLeft (TrimSuffix term connector) leftCutset)
                :: replicate (length run + 1) [] ++ after
          ∧ length before = length pre ∧ length after = length post).
Proof.
  intros H.
  destruct (H (lit "a\" ++ [LF] ++ lit "b ") wrap [] (lit "a\") [] (lit "b ") [])
    as (out & before & after & Hout & Hsplit & Hb & Ha).
  - vm_compute. reflexivity.
  - intros p [=].
  - vm_compute. reflexivity.
  - constructor.
  - vm_compute. reflexivity.
  - destruct before; [|done]. vm_compute in Hout. injection Hout as <-.
    vm_compute in Hsplit. congruence.
Qed.

(** C2.  The output of [unwrapLinesInString], split on newline, has as many
    lines as the input: no element of the line sequence is removed or
    added.  There is an output unless the last two lines both end with the
    connector after the trim. *)
Theorem line_count_preserved (text connector : gostring) :
  (∀ out : gostring,
      unwrapLinesInString text connector = Returns out →
      length (Split out LF) = length (Split text LF))
  ∧ (dangling connector (Split text LF) = false →
     ∃ out : gostring, unwrapLinesInString text connector = Returns out).
Proof.
  split; [|apply unwrapLinesInString_returns].
  intros out (outl & Hu & _ & ->)%unwrapLinesInString_returns_lines.
  by eapply unwraps_length.
Qed.

Lemma line_count_preserved_witness :
  length (Split (lit "a b" ++ [LF; LF] ++ lit "c") LF)
  = length (Split (lit "a \" ++ [LF] ++ lit "b" ++ [LF] ++ lit "c") LF).
Proof.
  apply (proj1 (line_count_preserved
                  (lit "a \" ++ [LF] ++ lit "b" ++ [LF] ++ lit "c") wrap)).
  vm_compute. reflexivity.
Defined.

(** X4.  The last line, when it ends with the connector after the trim and
    the line before it does not, loses the connector, and the unwrapper
    returns. *)
Lemma last_line_stripped (text connector : gostring)
    (pre : list gostring) (l : gostring) :
  Split text LF = pre ++ [l] →
  (∀ p, last pre = Some p → marked connector p = false) →
  marked connector l = true →
  ∃ before : list gostring,
    unwrapLinesInString text connector
    = Returns
        (Join (before ++ [TrimSuffix (TrimRight l rightCutset) connector]) [LF])
    ∧ length before = length pre.
Proof.
  intros Hsplit Hpre Hl.
  destruct (unwrapLinesInString_unwraps text connector) as (o & Ho & ->).
  destruct (unwraps_last_stripped connector _ o Ho pre l)
    as (before & -> & Hb); [done..|].
  by exists before.
Qed.

(** C3 fails on the code: the last line ends with the connector, so does
    the line before it, and the scan of lines 116-120, started at that
    earlier line, indexes [lines[len(lines)]]. *)
Theorem final_marker_after_marker_panics :
  last (Split (lit "a" ++ [LF] ++ lit "b\" ++ [LF] ++ lit "c\") LF)
  = Some (lit "c\")
  ∧ marked wrap (lit "c\") = true
  ∧ unwrapLinesInString (lit "a" ++ [LF] ++ lit "b\" ++ [LF] ++ lit "c\") wrap
    = Panics.
Proof. vm_compute. done. Qed.

(** Without a continuation the unwrapper only trims the lines. *)
Lemma unwrapLinesInString_unmarked (text connector : gostring) :
  Forall (λ l, marked connector l = false) (Split text LF) →
  unwrapLinesInString text connector
  = Returns (Join (map (λ l, TrimRight l rightCutset) (Split text LF)) [LF]).
Proof.
  intros H. apply (unwraps_unmarked connector) in H.
  unfold unwrapLinesInString. cbv zeta.
  by apply (rangeLoop_unwraps connector _ _ H []).
Qed.

(** C4, the statement that holds.  On a text in which no line ends with the
    connector after the trim, the unwrapper returns the text with every
    line trimmed of its trailing spaces, carriage returns, newlines and
    tabs. *)
Theorem no_marker_trims (text connector : gostring) :
  Forall (λ l, marked connector l = false) (Split text LF) →
  unwrapLinesInString text connector
  = Returns (Join (map (λ l, TrimRight l rightCutset) (Split text LF)) [LF]).
Proof. apply unwrapLinesInString_unmarked. Qed.

Lemma no_marker_trims_witness :
  unwrapLinesInString (lit "a  " ++ [CR; LF] ++ lit " b") wrap
  = Returns
      (Join (map (λ l, TrimRight l rightCutset)
                 (Split (lit "a  " ++ [CR; LF] ++ lit " b") LF)) [LF]).
Proof.
  apply (no_marker_trims (lit "a  " ++ [CR; LF] ++ lit " b") wrap).
  vm_compute. repeat constructor.
Defined.

(** C4 as it is stated fails: the one line ["a "] does not end with the
    connector, and comes back as ["a"]. *)
Lemma no_marker_identity_counterexample :
  ¬ (∀ text connector : gostring,
        Forall (λ l, marked connector l = false) (Split text LF) →
        unwrapLinesInString text connector = Returns text).
Proof.
  intros H. specialize (H (lit "a ") wrap).
  vm_compute in H. by specialize (H ltac:(repeat constructor)).
Qed.

(** C5, the statement that holds.  The text ["a \"], ["b"], ["c"] unwraps
    to ["a b"], an empty line, ["c"]: the space before the connector stays. *)
Theorem example_three_lines :
  unwrapLinesInString (lit "a \" ++ [LF] ++ lit "b" ++ [LF] ++ lit "c") wrap
  = Returns (lit "a b" ++ [LF; LF] ++ lit "c").
Proof. vm_compute. reflexivity. Qed.

(** C5 as it is stated fails: the result is not ["ab"], an empty line, ["c"]. *)
Lemma example_three_lines_counterexample :
  unwrapLinesInString (lit "a \" ++ [LF] ++ lit "b" ++ [LF] ++ lit "c") wrap
  ≠ Returns (lit "ab" ++ [LF; LF] ++ lit "c").
Proof. vm_compute. congruence. Qed.

(** C6, the statement that holds.  For a connector that is not empty,
    unwrapping the unwrapper's output returns it unchanged exactly when no
    line of that output ends with a space, carriage return, newline or tab,
    or with the connector. *)
Theorem rerun_unchanged (text connector out : gostring) :
  connector ≠ [] →
  unwrapLinesInString text connector = Returns out →
  unwrapLinesInString out connector = Returns out
  ↔ Forall (λ l, TrimRight l rightCutset = l ∧ HasSuffix l connector = false)
           (Split out LF).
Proof.
  intros Hc _. split.
  - intros (outl & Hu & _ & Hsplit)%unwrapLinesInString_returns_lines.
    rewrite <- Hsplit in Hu.
    apply unwraps_fixed in Hu; [|done..].
    eapply Forall_impl; [done|]. intros l [Hl Hm]. split; [done|].
    unfold marked in Hm. by rewrite Hl in Hm.
  - intros H. rewrite unwrapLinesInString_unmarked.
    + f_equal. rewrite <- (Join_Split out LF) at 2. f_equal.
      induction H as [|l ls [Hl _] _ IH]; simpl; congruence.
    + eapply Forall_impl; [done|]. intros l [Hl Hs]. unfold marked.
      by rewrite Hl.
Qed.

Lemma rerun_unchanged_witness :
  unwrapLinesInString (lit "a b" ++ [LF; LF] ++ lit "c") wrap
  = Returns (lit "a b" ++ [LF; LF] ++ lit "c")
  ↔ Forall (λ l, TrimRight l rightCutset = l ∧ HasSuffix l wrap = false)
           (Split (lit "a b" ++ [LF; LF] ++ lit "c") LF).
Proof.
  apply (rerun_unchanged
           (lit "a \" ++ [LF] ++ lit "b" ++ [LF] ++ lit "c") wrap).
  - done.
  - vm_compute. reflexivity.
Defined.

(** C6 as it is stated fails: ["a\\"] unwraps to ["a\"], which still ends
    with the connector and unwraps to ["a"]. *)
Lemma rerun_counterexample :
  ¬ (∀ text out : gostring,
        unwrapLinesInString text wrap = Returns out →
        unwrapLinesInString out wrap = Returns out).
Proof.
  intros H. specialize (H (lit "a\\") (lit "a\") ltac:(vm_compute; reflexivity)).
  vm_compute in H. congruence.
Qed.

(** C9.  On the empty text the unwrapper returns the empty text: one
    line, which is empty. *)
Theorem empty_input (connector : gostring) :
  unwrapLinesInString [] connector = Returns [] ∧ Split [] LF = [[]].
Proof.
  split; [|done]. unfold unwrapLinesInString. simpl.
  destruct (HasSuffix [] connector) eqn:E; [|done].
  simpl. unfold TrimSuffix. by rewrite E.
Qed.

(** C10 fails on the code: on the two lines ["a\"], ["b\"] the scan of lines
    116-120 reaches [next = 2 = len(lines)] with [lines[current]] still
    ending with the connector, and line 118 indexes out of range. *)
Theorem scan_indexes_out_of_range :
  Split (lit "a\" ++ [LF] ++ lit "b\") LF = [lit "a\"; lit "b\"]
  ∧ scan wrap 2 [lit "a\"; lit "b\"] 0 1 0 = Panics
  ∧ unwrapLinesInString (lit "a\" ++ [LF] ++ lit "b\") wrap = Panics.
Proof. vm_compute. done. Qed.


(** ** Properties of [Unwrap] *)

Lemma os_Remove_removes (name : gostring) (w : World) :
  files (os_Remove name w) !! name = None.
Proof. simpl. apply lookup_delete_eq. Qed.

Lemma os_Remove_others (name other : gostring) (w : World) :
  other ≠ name → files (os_Remove name w) !! other = files w !! other.
Proof. intros H. simpl. by rewrite lookup_delete_ne. Qed.

Lemma readFile_files (os : OS) (filePath : gostring) (w w' : World)
    (r : fallible gostring) :
  readFile os filePath w = (r, w') → files w' = files w.
Proof.
  unfold readFile, os_Open, ioutil_ReadAll. intros H.
  repeat case_match; simplify_eq/=; done.
Qed.

Lemma tempFile_Name (os : OS) (filePath : gostring) (w w' : World)
    (tmpFile : File) :
  tempFile os filePath w = (Ok tmpFile, w') →
  Name tmpFile ≠ [] ∧ is_Some (files w' !! Name tmpFile).
Proof.
  unfold tempFile, ioutil_TempFile. intros H.
  repeat case_match; simplify_eq/=. split.
  - by destruct (tempDir os).
  - rewrite lookup_insert_eq. by eexists.
Qed.

Lemma tempFile_Err_files (os : OS) (filePath : gostring) (w w' : World)
    (e : gostring) :
  tempFile os filePath w = (Err e, w') →
  files w' = files w
  ∧ e = lit "Failed to created a temp file: " ++ tmpFilePattern filePath.
Proof.
  unfold tempFile, ioutil_TempFile. intros H.
  repeat case_match; simplify_eq/=; done.
Qed.

(** C7.  When opening or reading the source file fails, or creating the
    temporary file fails, [Unwrap] returns the empty path, a clean-up that
    changes nothing, and an error that names the path (the pattern, for the
    temporary file), with the files as they were; when writing the
    temporary file fails, it returns the file's path, which is not empty, a
    clean-up that removes that file, and the error of the write. *)
Theorem Unwrap_errors (os : OS) (filePath : gostring) (w : World) :
  (fst (os_Open os filePath w) = None →
   ∃ (f : World → World) (w' : World),
     Unwrap os filePath w
     = (Returns (mkResults [] (Some f)
                   (Some (lit "Failed to open file: " ++ filePath))), w')
     ∧ (∀ w0, f w0 = w0) ∧ files w' = files w)
  ∧ (∀ (in_ : File) (w1 : World),
       os_Open os filePath w = (Some in_, w1) →
       ioutil_ReadAll os in_ w1 = None →
       ∃ (f : World → World) (w' : World),
         Unwrap os filePath w
         = (Returns (mkResults [] (Some f)
                       (Some (lit "Failed to read from file: " ++ filePath))),
            w')
         ∧ (∀ w0, f w0 = w0) ∧ files w' = files w)
  ∧ (∀ (text : gostring) (w1 : World),
       readFile os filePath w = (Ok text, w1) →
       fst (ioutil_TempFile os (tmpFilePattern filePath) w1) = None →
       ∃ (f : World → World) (w' : World),
         Unwrap os filePath w
         = (Returns (mkResults [] (Some f)
                       (Some (lit "Failed to created a temp file: "
                                ++ tmpFilePattern filePath))), w')
         ∧ (∀ w0, f w0 = w0) ∧ files w' = files w)
  ∧ (∀ (text : gostring) (w1 : World) (tmpFile : File) (w2 : World)
       (unwrapped : gostring) (w3 : World),
       readFile os filePath w = (Ok text, w1) →
       tempFile os filePath w1 = (Ok tmpFile, w2) →
       unwrapLinesInString text wrap = Returns unwrapped →
       File_WriteString os tmpFile unwrapped w2 = (false, w3) →
       ∃ (f : World → World) (w' : World),
         Unwrap os filePath w
         = (Returns (mkResults (Name tmpFile) (Some f)
                       (Some (lit "Failed to write unwrapped text to: "
                                ++ Name tmpFile))), w')
         ∧ Name tmpFile ≠ []
         ∧ is_Some (files w' !! Name tmpFile)
         ∧ (∀ w0, files (f w0) !! Name tmpFile = None)).
Proof.
  split; [|split; [|split]].
  - intros Hopen. unfold Unwrap, readFile.
    destruct (os_Open os filePath w) as [[in_|] w1] eqn:E; [done|].
    eexists _, _. split; [done|]. split; [done|].
    unfold os_Open in E. by repeat case_match; simplify_eq/=.
  - intros in_ w1 Hopen Hread. unfold Unwrap, readFile.
    rewrite Hopen, Hread.
    eexists _, _. split; [done|]. split; [done|].
    unfold os_Open in Hopen. by repeat case_match; simplify_eq/=.
  - intros text w1 Hread Htemp. unfold Unwrap. rewrite Hread.
    unfold tempFile.
    destruct (ioutil_TempFile os (tmpFilePattern filePath) w1)
      as [[tmpFile|] w2] eqn:E; [done|].
    eexists _, _. split; [done|]. split; [done|].
    apply readFile_files in Hread. rewrite <- Hread.
    unfold ioutil_TempFile in E. by repeat case_match; simplify_eq/=.
  - intros text w1 tmpFile w2 unwrapped w3 Hread Htemp Hunwrap Hwrite.
    unfold Unwrap. rewrite Hread, Htemp, Hunwrap, Hwrite.
    eexists _, _. split; [done|].
    split; [by eapply tempFile_Name|].
    split; [|intros w0; apply os_Remove_removes].
    unfold File_WriteString in Hwrite.
    repeat case_match; simplify_eq/=.
    rewrite lookup_insert_eq. by eexists.
Qed.

Lemma Unwrap_errors_witness :
  (∃ (f : World → World) (w' : World),
     Unwrap workingOS (lit "dir/none.tpl") oneTemplate
     = (Returns (mkResults [] (Some f)
                   (Some (lit "Failed to open file: dir/none.tpl"))), w')
     ∧ (∀ w0, f w0 = w0) ∧ files w' = files oneTemplate)
  ∧ (∃ (f : World → World) (w' : World),
       Unwrap (faultyOS true (Some (lit "42")) None) (lit "dir/page.tpl")
         oneTemplate
       = (Returns (mkResults [] (Some f)
                     (Some (lit "Failed to read from file: dir/page.tpl"))),
          w')
       ∧ (∀ w0, f w0 = w0) ∧ files w' = files oneTemplate)
  ∧ (∃ (f : World → World) (w' : World),
       Unwrap (faultyOS false None None) (lit "dir/page.tpl") oneTemplate
       = (Returns (mkResults [] (Some f)
                     (Some (lit "Failed to created a temp file: page*.tpl"))),
          w')
       ∧ (∀ w0, f w0 = w0) ∧ files w' = files oneTemplate)
  ∧ (∃ (f : World → World) (w' : World),
       Unwrap (faultyOS false (Some (lit "42")) (Some 1)) (lit "dir/page.tpl")
         oneTemplate
       = (Returns (mkResults (lit "/tmp/page42.tpl") (Some f)
                     (Some (lit "Failed to write unwrapped text to: /tmp/page42.tpl"))),
          w')
       ∧ lit "/tmp/page42.tpl" ≠ []
       ∧ is_Some (files w' !! lit "/tmp/page42.tpl")
       ∧ (∀ w0, files (f w0) !! lit "/tmp/page42.tpl" = None)).
Proof.
  split; [|split; [|split]].
  - apply (proj1 (Unwrap_errors workingOS (lit "dir/none.tpl") oneTemplate)).
    vm_compute. reflexivity.
  - eapply (proj1 (proj2
              (Unwrap_errors (faultyOS true (Some (lit "42")) None)
                 (lit "dir/page.tpl") oneTemplate))).
    + vm_compute. reflexivity.
    + vm_compute. reflexivity.
  - eapply (proj1 (proj2 (proj2
              (Unwrap_errors (faultyOS false None None)
                 (lit "dir/page.tpl") oneTemplate)))).
    + vm_compute. reflexivity.
    + vm_compute. reflexivity.
  - eapply (proj2 (proj2 (proj2
              (Unwrap_errors (faultyOS false (Some (lit "42")) (Some 1))
                 (lit "dir/page.tpl") oneTemplate)))
              (lit "a \" ++ [LF] ++ lit "b") _
              (mkFile (lit "/tmp/page42.tpl")) _ (lit "a b" ++ [LF]) _).
    + vm_compute. reflexivity.
    + vm_compute. reflexivity.
    + vm_compute. reflexivity.
    + vm_compute. reflexivity.
Defined.

(** C8.  On every return of [Unwrap] the clean-up is not nil and calling
    it does not panic; it changes nothing when no temporary file was
    created (reading the source failed, or creating the temporary file
    did), and otherwise removes the temporary file, whose path is the one
    returned. *)
Theorem cleanUp_safe (os : OS) (filePath : gostring) (w w' : World)
    (res : results) :
  Unwrap os filePath w = (Returns res, w') →
  ∃ f : World → World,
    cleanUp res = Some f
    ∧ (∀ w0, call (cleanUp res) w0 = Returns (f w0))
    ∧ (∀ e w1, readFile os filePath w = (Err e, w1) → ∀ w0, f w0 = w0)
    ∧ (∀ text w1 e w2,
         readFile os filePath w = (Ok text, w1) →
         tempFile os filePath w1 = (Err e, w2) →
         ∀ w0, f w0 = w0)
    ∧ (∀ text w1 tmpFile w2,
         readFile os filePath w = (Ok text, w1) →
         tempFile os filePath w1 = (Ok tmpFile, w2) →
         newFilePath res = Name tmpFile
         ∧ ∀ w0, f w0 = os_Remove (Name tmpFile) w0
                 ∧ files (f w0) !! newFilePath res = None).
Proof.
  unfold Unwrap. intros H.
  destruct (readFile os filePath w) as [[text|e] w1] eqn:Hread.
  - destruct (tempFile os filePath w1) as [[tmpFile|e] w2] eqn:Htemp.
    + exists (os_Remove (Name tmpFile)).
      assert (cleanUp res = Some (os_Remove (Name tmpFile))
              ∧ newFilePath res = Name tmpFile) as [Hc Hn].
      { destruct (unwrapLinesInString text wrap) as [unwrapped| |]; [|done..].
        destruct (File_WriteString os tmpFile unwrapped w2) as [[|] w3];
          by simplify_eq/=. }
      rewrite Hc, Hn. split; [done|]. split; [done|]. split; [done|].
      split.
      * intros text' w1' e w2' [= <- <-] He. congruence.
      * intros text' w1' tmpFile' w2' [= <- <-] Ht.
        rewrite Htemp in Ht. injection Ht as <- <-.
        split; [done|]. intros w0. split; [done|]. apply os_Remove_removes.
    + simplify_eq/=. eexists. split; [done|]. split; [done|].
      split; [done|]. split; [done|].
      intros text' w1' tmpFile' w2' [= <- <-] Ht. congruence.
  - simplify_eq/=. eexists. split; [done|]. split; [done|].
    split; [done|]. split; intros; simplify_eq.
Qed.

Lemma cleanUp_safe_witness :
  ∃ f : World → World,
    Some (os_Remove (lit "/tmp/page42.tpl")) = Some f
    ∧ (∀ w0, call (Some (os_Remove (lit "/tmp/page42.tpl"))) w0
             = Returns (f w0))
    ∧ (∀ e w1,
         readFile workingOS (lit "dir/page.tpl") oneTemplate = (Err e, w1) →
         ∀ w0, f w0 = w0)
    ∧ (∀ text w1 e w2,
         readFile workingOS (lit "dir/page.tpl") oneTemplate = (Ok text, w1) →
         tempFile workingOS (lit "dir/page.tpl") w1 = (Err e, w2) →
         ∀ w0, f w0 = w0)
    ∧ (∀ text w1 tmpFile w2,
         readFile workingOS (lit "dir/page.tpl") oneTemplate = (Ok text, w1) →
         tempFile workingOS (lit "dir/page.tpl") w1 = (Ok tmpFile, w2) →
         lit "/tmp/page42.tpl" = Name tmpFile
         ∧ ∀ w0, f w0 = os_Remove (Name tmpFile) w0
                 ∧ files (f w0) !! lit "/tmp/page42.tpl" = None).
Proof.
  apply (cleanUp_safe workingOS (lit "dir/page.tpl") oneTemplate
           (snd (Unwrap workingOS (lit "dir/page.tpl") oneTemplate))
           (mkResults (lit "/tmp/page42.tpl")
              (Some (os_Remove (lit "/tmp/page42.tpl"))) None)).
  vm_compute. reflexivity.
Defined.

(** ** Further properties of [unwrapLinesInString] *)

(** X1.  The unwrapper panics exactly on the texts whose last two lines
    both end with the connector after the trim; on every other text it
    returns. *)
Theorem panics_on_last_two_lines (text connector : gostring) :
  (unwrapLinesInString text connector = Panics
   ↔ ∃ (pre : list gostring) (a b : gostring),
       Split text LF = pre ++ [a; b]
       ∧ marked connector a = true ∧ marked connector b = true)
  ∧ (unwrapLinesInString text connector ≠ Panics →
     ∃ out, unwrapLinesInString text connector = Returns out).
Proof.
  split.
  - rewrite unwrapLinesInString_panics_iff. apply dangling_last_two.
  - intros H. destruct (unwrapLinesInString text connector) eqn:E; [by eexists|done|].
    by apply unwrapLinesInString_fuel in E.
Qed.

(** X2.  A text of one line (no newline in it) never panics: it comes back
    trimmed on the right and without one trailing connector. *)
Theorem one_line_text (text connector : gostring) :
  LF ∉ text →
  unwrapLinesInString text connector
  = Returns (TrimSuffix (TrimRight text rightCutset) connector).
Proof.
  intros H. unfold unwrapLinesInString. rewrite Split_single by done.
  simpl. destruct (HasSuffix (TrimRight text rightCutset) connector) eqn:E.
  - done.
  - by rewrite TrimSuffix_unmarked.
Qed.

Lemma one_line_text_witness :
  unwrapLinesInString (lit "a \ ") wrap
  = Returns (TrimSuffix (TrimRight (lit "a \ ") rightCutset) wrap).
Proof.
  apply (one_line_text (lit "a \ ") wrap).
  apply (bool_decide_eq_true_1 _). vm_compute. reflexivity.
Defined.

(** X3.  With the empty connector every line counts as continued: a text
    of two lines or more panics, and a text of one line comes back
    trimmed. *)
Theorem empty_connector (text : gostring) :
  (LF ∈ text → unwrapLinesInString text [] = Panics)
  ∧ (LF ∉ text →
     unwrapLinesInString text [] = Returns (TrimRight text rightCutset)).
Proof.
  split.
  - intros H. apply unwrapLinesInString_panics_iff.
    apply Split_two_lines in H. revert H.
    induction (Split text LF) as [|a [|b [|c ls]] IH]; simpl; try lia.
    + intros _. unfold marked. by rewrite !HasSuffix_nil_r.
    + intros _. apply IH. simpl. lia.
  - intros H. unfold unwrapLinesInString. rewrite Split_single by done.
    simpl. rewrite HasSuffix_nil_r. simpl. unfold TrimSuffix.
    rewrite HasSuffix_nil_r. simpl. by rewrite Nat.sub_0_r, take_ge.
Qed.

Lemma empty_connector_witness :
  unwrapLinesInString (lit "a" ++ [LF] ++ lit "b") [] = Panics
  ∧ unwrapLinesInString (lit "a ") [] = Returns (TrimRight (lit "a ") rightCutset).
Proof.
  split.
  - apply (proj1 (empty_connector (lit "a" ++ [LF] ++ lit "b"))).
    apply (bool_decide_eq_true_1 _). vm_compute. reflexivity.
  - apply (proj2 (empty_connector (lit "a "))).
    apply (bool_decide_eq_true_1 _). vm_compute. reflexivity.
Defined.

Lemma last_line_stripped_witness :
  ∃ before : list gostring,
    unwrapLinesInString (lit "a" ++ [LF] ++ lit "b \ ") wrap
    = Returns
        (Join (before ++ [TrimSuffix (TrimRight (lit "b \ ") rightCutset) wrap])
              [LF])
    ∧ length before = 1.
Proof.
  apply (last_line_stripped (lit "a" ++ [LF] ++ lit "b \ ") wrap
           [lit "a"] (lit "b \ ")).
  - vm_compute. reflexivity.
  - intros p [= <-]. vm_compute. reflexivity.
  - vm_compute. reflexivity.
Defined.

(** X5.  A line that neither ends with the connector after the trim nor
    follows a line that does is kept at its index, trimmed on the right:
    the lines outside the runs keep their line numbers. *)
Theorem plain_line_kept (text connector : gostring)
    (pre : list gostring) (l : gostring) (post : list gostring) :
  dangling connector (Split text LF) = false →
  Split text LF = pre ++ l :: post →
  (∀ p, last pre = Some p → marked connector p = false) →
  marked connector l = false →
  ∃ (out : gostring) (before after : list gostring),
    unwrapLinesInString text connector = Returns out
    ∧ Split out LF = before ++ TrimRight l rightCutset :: after
    ∧ length before = length pre ∧ length after = length post.
Proof.
  intros Hd Hsplit Hpre Hl.
  destruct (unwrapLinesInString_returns text connector Hd) as [out Hout].
  exists out.
  destruct (unwrapLinesInString_returns_lines _ _ _ Hout)
    as (outl & Hu & _ & ->).
  destruct (unwraps_plain_kept connector _ _ Hu pre l post outl)
    as (before & after & H); [done..|].
  by exists before, after.
Qed.

Lemma plain_line_kept_witness :
  ∃ (out : gostring) (before after : list gostring),
    unwrapLinesInString
      (lit "a \" ++ [LF] ++ lit "b" ++ [LF] ++ lit "c  " ++ [LF] ++ lit "d") wrap
    = Returns out
    ∧ Split out LF = before ++ TrimRight (lit "c  ") rightCutset :: after
    ∧ length before = 2 ∧ length after = 1.
Proof.
  apply (plain_line_kept
           (lit "a \" ++ [LF] ++ lit "b" ++ [LF] ++ lit "c  " ++ [LF] ++ lit "d")
           wrap [lit "a \"; lit "b"] (lit "c  ") [lit "d"]).
  - vm_compute. reflexivity.
  - vm_compute. reflexivity.
  - intros p [= <-]. vm_compute. reflexivity.
  - vm_compute. reflexivity.
Defined.

(** X6.  The output is never longer than the input: the unwrapper only
    removes bytes. *)
Theorem output_not_longer (text connector out : gostring) :
  unwrapLinesInString text connector = Returns out →
  length out ≤ length text.
Proof.
  intros (outl & Hu & -> & _)%unwrapLinesInString_returns_lines.
  rewrite <- (Join_Split text LF) at 1. rewrite !Join_length.
  rewrite (unwraps_length connector _ _ Hu outl eq_refl).
  generalize (unwraps_size connector _ _ Hu outl eq_refl). lia.
Qed.

Lemma output_not_longer_witness :
  length (lit "a b" ++ [LF; LF] ++ lit "c")
  ≤ length (lit "a \" ++ [LF] ++ lit "  b" ++ [LF] ++ lit "c  ").
Proof.
  apply (output_not_longer
           (lit "a \" ++ [LF] ++ lit "  b" ++ [LF] ++ lit "c  ") wrap).
  vm_compute. reflexivity.
Defined.

(** X7.  Every byte of the output is a byte of the input: the unwrapper
    inserts nothing, not even a separator. *)
Theorem output_bytes_from_input (text connector out : gostring) (c : ascii) :
  unwrapLinesInString text connector = Returns out →
  c ∈ out → c ∈ text.
Proof.
  intros (outl & Hu & -> & _)%unwrapLinesInString_returns_lines Hc.
  destruct (decide (c ∈ text)) as [|Hn]; [done|]. exfalso.
  assert (Forall (λ l, c ∉ l) outl) as Hout.
  { eapply unwraps_bytes; [done..|]. apply Forall_forall.
    intros l Hl Hcl. apply Hn. by eapply elem_of_Split. }
  apply elem_of_Join in Hc as [[Hc Hlen]|(l & Hl & Hc)].
  - apply list_elem_of_singleton in Hc as ->.
    rewrite (unwraps_length connector _ _ Hu outl eq_refl) in Hlen.
    rewrite Split_single in Hlen by done. simpl in Hlen. lia.
  - by apply (proj1 (Forall_forall _ _) Hout l Hl).
Qed.

Lemma output_bytes_from_input_witness :
  "b"%char ∈ lit "a \" ++ [LF] ++ lit "b".
Proof.
  apply (output_bytes_from_input
           (lit "a \" ++ [LF] ++ lit "b") wrap (lit "a b" ++ [LF])).
  - vm_compute. reflexivity.
  - apply (bool_decide_eq_true_1 _). vm_compute. reflexivity.
Defined.

(** X8.  For a connector that is not empty, the unwrapper never panics on
    its own output: a second pass always returns. *)
Theorem rerun_returns (text connector out : gostring) :
  connector ≠ [] →
  unwrapLinesInString text connector = Returns out →
  ∃ out', unwrapLinesInString out connector = Returns out'.
Proof.
  intros Hc (outl & Hu & _ & Hs)%unwrapLinesInString_returns_lines.
  apply unwrapLinesInString_returns. rewrite Hs.
  by eapply unwraps_out_not_dangling.
Qed.

Lemma rerun_returns_witness :
  ∃ out', unwrapLinesInString (lit "a\") wrap = Returns out'.
Proof.
  apply (rerun_returns (lit "a\\") wrap (lit "a\")).
  - done.
  - vm_compute. reflexivity.
Defined.

(** X9.  Unwrapping distributes over putting a text after a text whose
    last line does not end with the connector after the trim: the first
    text returns on its own, and the whole is its output, a newline, and
    the outcome of the second text. *)
Theorem unwrap_concatenation (text1 text2 connector : gostring) :
  (∀ p, last (Split text1 LF) = Some p → marked connector p = false) →
  ∃ out1 : gostring,
    unwrapLinesInString text1 connector = Returns out1
    ∧ unwrapLinesInString (text1 ++ [LF] ++ text2) connector
      = omap (λ out2, out1 ++ [LF] ++ out2)
             (unwrapLinesInString text2 connector).
Proof.
  intros Hlast.
  destruct (unwrapLinesInString_unwraps text1 connector) as (o1 & Ho1 & ->).
  destruct (unwrapLinesInString_unwraps text2 connector) as (o2 & Ho2 & ->).
  destruct (unwraps_app connector _ _ Ho1 Hlast) as (P & -> & Happ).
  exists (Join P [LF]). split; [done|].
  specialize (Happ _ _ Ho2).
  pose proof (rangeLoop_unwraps connector _ _ Happ []) as Hr. simpl in Hr.
  unfold unwrapLinesInString. cbv zeta. simpl.
  rewrite Split_app_sep, Hr.
  destruct o2 as [Q| |]; simpl; [|done..]. f_equal.
  apply Join_app.
  - intros ->. apply unwraps_length with (out := []) in Ho1; [|done].
    generalize (Split_length text1 LF). simpl in Ho1. lia.
  - intros ->. apply unwraps_length with (out := []) in Ho2; [|done].
    generalize (Split_length text2 LF). simpl in Ho2. lia.
Qed.

Lemma unwrap_concatenation_witness :
  ∃ out1 : gostring,
    unwrapLinesInString (lit "a \" ++ [LF] ++ lit "b") wrap = Returns out1
    ∧ unwrapLinesInString
        ((lit "a \" ++ [LF] ++ lit "b") ++ [LF] ++ lit "c\" ++ [LF] ++ lit "d")
        wrap
      = omap (λ out2, out1 ++ [LF] ++ out2)
             (unwrapLinesInString (lit "c\" ++ [LF] ++ lit "d") wrap).
Proof.
  apply (unwrap_concatenation (lit "a \" ++ [LF] ++ lit "b")
           (lit "c\" ++ [LF] ++ lit "d") wrap).
  intros p [= <-]. vm_compute. reflexivity.
Defined.

(** ** Further properties of the functions on files *)

Lemma extScan_result (r : gostring) :
  ∀ acc : gostring,
    extScan r acc = []
    ∨ ∃ r1 r2 : gostring,
        r = r1 ++ r2 ∧ (Separator ∉ r1) ∧ r1 ≠ []
        ∧ extScan r acc = rev r1 ++ acc.
Proof.
  induction r as [|c r IH]; intros acc; simpl; [by left|].
  case_bool_decide as Hsep; [by left|].
  case_bool_decide as Hdot.
  - right. exists [c], r. split; [done|]. split; [|done].
    by intros ?%list_elem_of_singleton.
  - destruct (IH (c :: acc)) as [->|(r1 & r2 & -> & Hr1 & _ & ->)]; [by left|].
    right. exists (c :: r1), r2. split; [done|]. split; [|split; [done|]].
    + intros [?|?]%elem_of_cons; [congruence|done].
    + simpl. by rewrite <- app_assoc.
Qed.

Lemma Ext_suffix (path : gostring) :
  Ext path = []
  ∨ ∃ d : gostring,
      path = d ++ Ext path ∧ (Separator ∉ Ext path) ∧ Ext path ≠ [].
Proof.
  unfold Ext.
  destruct (extScan_result (rev path) []) as [->|(r1 & r2 & Hr & Hs & Hne & ->)];
    [by left|].
  right. exists (rev r2). rewrite app_nil_r.
  split; [|split].
  - rewrite <- rev_app_distr, <- Hr. by rewrite rev_involutive.
  - intros H. apply Hs. apply list_elem_of_In. apply in_rev.
    by apply list_elem_of_In.
  - intros H. apply Hne. apply (f_equal (@rev ascii)) in H.
    by rewrite rev_involutive in H.
Qed.

Lemma lastElement_none (e : gostring) : Separator ∉ e → lastElement e = e.
Proof.
  intros H. destruct e as [|c e]; [done|]. simpl.
  rewrite bool_decide_eq_false_2 by (intros ?; apply H; by right).
  rewrite bool_decide_eq_false_2 by (intros ->; apply H; left). done.
Qed.

Lemma lastElement_app (d e : gostring) :
  Separator ∉ e → ∃ x, lastElement (d ++ e) = x ++ e.
Proof.
  intros He. induction d as [|c d [x IH]].
  - exists []. by apply lastElement_none.
  - simpl. case_bool_decide; [by exists x|].
    case_bool_decide; [by exists d|by exists (c :: d)].
Qed.

Lemma Base_Ext (path : gostring) : HasSuffix (Base path) (Ext path) = true.
Proof.
  destruct (Ext_suffix path) as [->|(d & Hp & Hs & Hne)];
    [apply HasSuffix_nil_r|].
  set (e := Ext path) in *. rewrite Hp. unfold Base.
  rewrite decide_False by by destruct d, e.
  rewrite TrimRight_app, TrimRight_none.
  - destruct (lastElement_app d e Hs) as [x ->].
    rewrite decide_False by by destruct x, e.
    apply HasSuffix_app.
  - intros c Hc ->%list_elem_of_singleton. done.
  - rewrite TrimRight_none; [done|].
    intros c Hc ->%list_elem_of_singleton. done.
Qed.


Lemma tmpFilePattern_base_stem (filePath : gostring) :
  ∃ stem : gostring,
    tmpFilePattern filePath = stem ++ lit "*" ++ Ext filePath
    ∧ stem ++ Ext filePath = Base filePath.
Proof.
  exists (TrimSuffix (Base filePath) (Ext filePath)). split; [done|].
  destruct (proj1 (HasSuffix_true _ _) (Base_Ext filePath)) as [k Hk].
  rewrite Hk at 1. by rewrite TrimSuffix_app.
Qed.

(** X10.  The pattern of the temporary file is the base name of the path
    with a ["*"] put in front of its extension: taking the ["*"] out gives
    the base name back. *)
Theorem tmpFilePattern_base (filePath : gostring) :
  ∃ stem : gostring,
    tmpFilePattern filePath = stem ++ lit "*" ++ Ext filePath
    ∧ stem ++ Ext filePath = Base filePath.
Proof. apply tmpFilePattern_base_stem. Qed.



Lemma tempFile_Ok_world (os : OS) (filePath : gostring) (w w' : World)
    (tmpFile : File) :
  tempFile os filePath w = (Ok tmpFile, w') →
  files w' = <[Name tmpFile := []]> (files w)
  ∧ openFiles w' = S (openFiles w).
Proof.
  unfold tempFile, ioutil_TempFile. intros H.
  repeat case_match; by simplify_eq/=.
Qed.

Lemma tempFile_Err_world (os : OS) (filePath : gostring) (w w' : World)
    (e : gostring) :
  tempFile os filePath w = (Err e, w') →
  files w' = files w ∧ openFiles w' = openFiles w.
Proof.
  unfold tempFile, ioutil_TempFile. intros H.
  repeat case_match; by simplify_eq/=.
Qed.

Lemma File_WriteString_world (os : OS) (f : File) (s : gostring)
    (w w' : World) (b : bool) :
  File_WriteString os f s w = (b, w') →
  openFiles w' = openFiles w
  ∧ ∃ content : gostring,
      files w' = <[Name f := content]> (files w)
      ∧ (b = true → content = default [] (files w !! Name f) ++ s).
Proof.
  unfold File_WriteString. intros H.
  repeat case_match; simplify_eq/=; (split; [done|]); eexists; by split.
Qed.

Lemma readFile_world (os : OS) (filePath : gostring) (w w' : World)
    (r : fallible gostring) :
  readFile os filePath w = (r, w') →
  files w' = files w ∧ openFiles w' = openFiles w
  ∧ match r with
    | Ok text =>
        files w !! filePath = Some text
        ∧ openFault os filePath = false ∧ readFault os filePath = false
    | Err message =>
        (message = lit "Failed to open file: " ++ filePath
         ∧ (files w !! filePath = None ∨ openFault os filePath = true))
        ∨ (message = lit "Failed to read from file: " ++ filePath
           ∧ is_Some (files w !! filePath)
           ∧ openFault os filePath = false
           ∧ readFault os filePath = true)
    end.
Proof.
  unfold readFile, os_Open, ioutil_ReadAll. intros H.
  destruct (files w !! filePath) as [content|] eqn:Hf;
    [destruct (openFault os filePath) eqn:Ho|]; simpl in H.
  - injection H as <- <-. split; [done|]. split; [done|]. left. auto.
  - rewrite Hf in H. destruct (readFault os filePath) eqn:Hr;
      injection H as <- <-; (split; [done|]); (split; [done|]).
    + right. split; [done|]. split; [by eexists|]. done.
    + done.
  - injection H as <- <-. split; [done|]. split; [done|]. left. auto.
Qed.

(** X12.  [readFile] returns the content of the file exactly when the file
    exists and neither opening nor reading it fails; otherwise it returns
    an error that names the path and says which of the two failed.  Either
    way it changes no file and leaves no file open. *)
Theorem readFile_result (os : OS) (filePath : gostring) (w w' : World)
    (r : fallible gostring) :
  readFile os filePath w = (r, w') →
  files w' = files w ∧ openFiles w' = openFiles w
  ∧ match r with
    | Ok text =>
        files w !! filePath = Some text
        ∧ openFault os filePath = false ∧ readFault os filePath = false
    | Err message =>
        (message = lit "Failed to open file: " ++ filePath
         ∧ (files w !! filePath = None ∨ openFault os filePath = true))
        ∨ (message = lit "Failed to read from file: " ++ filePath
           ∧ is_Some (files w !! filePath)
           ∧ openFault os filePath = false
           ∧ readFault os filePath = true)
    end.
Proof. apply readFile_world. Qed.

Lemma readFile_result_witness :
  files (snd (readFile workingOS (lit "dir/page.tpl") oneTemplate))
  = files oneTemplate
  ∧ openFiles (snd (readFile workingOS (lit "dir/page.tpl") oneTemplate))
    = openFiles oneTemplate
  ∧ files oneTemplate !! lit "dir/page.tpl"
    = Some (lit "a \" ++ [LF] ++ lit "b")
  ∧ openFault workingOS (lit "dir/page.tpl") = false
  ∧ readFault workingOS (lit "dir/page.tpl") = false.
Proof.
  apply (readFile_result workingOS (lit "dir/page.tpl") oneTemplate
           (snd (readFile workingOS (lit "dir/page.tpl") oneTemplate))
           (Ok (lit "a \" ++ [LF] ++ lit "b"))).
  vm_compute. reflexivity.
Defined.

Lemma Unwrap_without_error (os : OS) (filePath : gostring) (w w' : World)
    (res : results) :
  Unwrap os filePath w = (Returns res, w') →
  err res = None →
  ∃ text unwrapped : gostring,
    files w !! filePath = Some text
    ∧ unwrapLinesInString text wrap = Returns unwrapped
    ∧ newFilePath res ≠ []
    ∧ files w' !! newFilePath res = Some unwrapped.
Proof.
  unfold Unwrap. intros H Herr.
  destruct (readFile os filePath w) as [[text|e] w1] eqn:Hread;
    [|by simplify_eq/=].
  destruct (tempFile os filePath w1) as [[tmpFile|e] w2] eqn:Htemp;
    [|by simplify_eq/=].
  destruct (unwrapLinesInString text wrap) as [unwrapped| |] eqn:Hu; [|done..].
  destruct (File_WriteString os tmpFile unwrapped w2) as [[|] w3] eqn:Hw;
    [|by simplify_eq/=].
  injection H as <- <-. simpl.
  apply readFile_world in Hread as (_ & _ & Hf & _).
  destruct (tempFile_Name _ _ _ _ _ Htemp) as [Hne _].
  apply tempFile_Ok_world in Htemp as [Hfiles _].
  apply File_WriteString_world in Hw as (_ & content & Hfiles3 & Hc).
  exists text, unwrapped. split; [done|]. split; [done|]. split; [done|].
  rewrite Hfiles3, lookup_insert_eq, (Hc eq_refl), Hfiles, lookup_insert_eq.
  done.
Qed.

(** X13.  Whenever [Unwrap] returns no error, the path it returns is not
    empty and names a file that holds exactly the unwrapped content of the
    source file. *)
Theorem Unwrap_success (os : OS) (filePath : gostring) (w w' : World)
    (res : results) :
  Unwrap os filePath w = (Returns res, w') →
  err res = None →
  ∃ text unwrapped : gostring,
    files w !! filePath = Some text
    ∧ unwrapLinesInString text wrap = Returns unwrapped
    ∧ newFilePath res ≠ []
    ∧ files w' !! newFilePath res = Some unwrapped.
Proof. apply Unwrap_without_error. Qed.

Lemma Unwrap_success_witness :
  ∃ text unwrapped : gostring,
    files oneTemplate !! lit "dir/page.tpl" = Some text
    ∧ unwrapLinesInString text wrap = Returns unwrapped
    ∧ lit "/tmp/page42.tpl" ≠ []
    ∧ files (snd (Unwrap workingOS (lit "dir/page.tpl") oneTemplate))
        !! lit "/tmp/page42.tpl"
      = Some unwrapped.
Proof.
  apply (Unwrap_success workingOS (lit "dir/page.tpl") oneTemplate
           (snd (Unwrap workingOS (lit "dir/page.tpl") oneTemplate))
           (mkResults (lit "/tmp/page42.tpl")
              (Some (os_Remove (lit "/tmp/page42.tpl"))) None)).
  - vm_compute. reflexivity.
  - reflexivity.
Defined.

(** X14.  [Unwrap] leaves as many files open as it found, on every path:
    the source is closed after the read, the temporary file when [Unwrap]
    returns or panics. *)
Theorem Unwrap_closes_files (os : OS) (filePath : gostring) (w : World) :
  openFiles (snd (Unwrap os filePath w)) = openFiles w.
Proof.
  unfold Unwrap.
  destruct (readFile os filePath w) as [[text|e] w1] eqn:Hread;
    apply readFile_world in Hread as (_ & Hopen & _); [|done].
  destruct (tempFile os filePath w1) as [[tmpFile|e] w2] eqn:Htemp.
  - apply tempFile_Ok_world in Htemp as [_ Hopen2].
    destruct (unwrapLinesInString text wrap) as [unwrapped| |]; simpl;
      [|by rewrite Hopen2, <- Hopen..].
    destruct (File_WriteString os tmpFile unwrapped w2) as [[|] w3] eqn:Hw;
      apply File_WriteString_world in Hw as [Hopen3 _]; simpl;
      by rewrite Hopen3, Hopen2, <- Hopen.
  - apply tempFile_Err_world in Htemp as [_ Hopen2]. simpl. congruence.
Qed.

(** X15.  [Unwrap] changes no file but the one it returns the path of: the
    source file and every other file are as they were. *)
Theorem Unwrap_other_files (os : OS) (filePath : gostring) (w w' : World)
    (res : results) (other : gostring) :
  Unwrap os filePath w = (Returns res, w') →
  other ≠ newFilePath res →
  files w' !! other = files w !! other.
Proof.
  unfold Unwrap. intros H Hother.
  destruct (readFile os filePath w) as [[text|e] w1] eqn:Hread;
    apply readFile_world in Hread as (Hfiles & _ & _);
    [|injection H as <- <-; by rewrite Hfiles].
  destruct (tempFile os filePath w1) as [[tmpFile|e] w2] eqn:Htemp.
  - apply tempFile_Ok_world in Htemp as [Hfiles2 _].
    destruct (unwrapLinesInString text wrap) as [unwrapped| |]; [|done..].
    destruct (File_WriteString os tmpFile unwrapped w2) as [[|] w3] eqn:Hw;
      apply File_WriteString_world in Hw as (_ & content & Hfiles3 & _);
      injection H as <- <-; simpl in *;
      by rewrite Hfiles3, lookup_insert_ne, Hfiles2, lookup_insert_ne, Hfiles.
  - apply tempFile_Err_world in Htemp as [Hfiles2 _].
    injection H as <- <-. by rewrite Hfiles2, Hfiles.
Qed.

Lemma Unwrap_other_files_witness :
  files (snd (Unwrap workingOS (lit "dir/page.tpl") oneTemplate))
    !! lit "dir/page.tpl"
  = files oneTemplate !! lit "dir/page.tpl".
Proof.
  apply (Unwrap_other_files workingOS (lit "dir/page.tpl") oneTemplate
           (snd (Unwrap workingOS (lit "dir/page.tpl") oneTemplate))
           (mkResults (lit "/tmp/page42.tpl")
              (Some (os_Remove (lit "/tmp/page42.tpl"))) None)).
  - vm_compute. reflexivity.
  - simpl. intros [=].
Defined.

(** X16.  When the path [Unwrap] returns did not name a file before the
    call, calling the clean-up after [Unwrap] puts the files back as they
    were before the call. *)
Theorem cleanUp_restores (os : OS) (filePath : gostring) (w w' : World)
    (res : results) :
  Unwrap os filePath w = (Returns res, w') →
  files w !! newFilePath res = None →
  ∃ w'' : World,
    call (cleanUp res) w' = Returns w'' ∧ files w'' = files w.
Proof.
  unfold Unwrap. intros H Hfresh.
  destruct (readFile os filePath w) as [[text|e] w1] eqn:Hread;
    apply readFile_world in Hread as (Hfiles & _ & _);
    [|injection H as <- <-; by eexists].
  destruct (tempFile os filePath w1) as [[tmpFile|e] w2] eqn:Htemp.
  - apply tempFile_Ok_world in Htemp as [Hfiles2 _].
    destruct (unwrapLinesInString text wrap) as [unwrapped| |]; [|done..].
    destruct (File_WriteString os tmpFile unwrapped w2) as [[|] w3] eqn:Hw;
      apply File_WriteString_world in Hw as (_ & content & Hfiles3 & _);
      injection H as <- <-; simpl in *; eexists; (split; [done|]); simpl;
      rewrite Hfiles3, delete_insert_eq, Hfiles2, Hfiles;
      by apply delete_insert_id.
  - apply tempFile_Err_world in Htemp as [Hfiles2 _].
    injection H as <- <-. eexists. split; [done|]. congruence.
Qed.

Lemma cleanUp_restores_witness :
  ∃ w'' : World,
    call (Some (os_Remove (lit "/tmp/page42.tpl")))
         (snd (Unwrap workingOS (lit "dir/page.tpl") oneTemplate))
    = Returns w''
    ∧ files w'' = files oneTemplate.
Proof.
  apply (cleanUp_restores workingOS (lit "dir/page.tpl") oneTemplate
           (snd (Unwrap workingOS (lit "dir/page.tpl") oneTemplate))
           (mkResults (lit "/tmp/page42.tpl")
              (Some (os_Remove (lit "/tmp/page42.tpl"))) None)).
  - vm_compute. reflexivity.
  - vm_compute. reflexivity.
Defined.

(** X17.  When the source file ends in two lines that both end with the
    backslash after the trim, [Unwrap] panics after it has created the
    temporary file: the file stays behind, empty, and no clean-up is
    returned for it. *)
Theorem Unwrap_panic_leaves_file (os : OS) (filePath : gostring)
    (w w1 w2 : World) (text : gostring) (tmpFile : File) :
  readFile os filePath w = (Ok text, w1) →
  tempFile os filePath w1 = (Ok tmpFile, w2) →
  dangling wrap (Split text LF) = true →
  fst (Unwrap os filePath w) = Panics
  ∧ files (snd (Unwrap os filePath w)) !! Name tmpFile = Some [].
Proof.
  intros Hread Htemp Hd. unfold Unwrap. rewrite Hread, Htemp.
  apply unwrapLinesInString_panics_iff in Hd. rewrite Hd. simpl.
  split; [done|].
  apply tempFile_Ok_world in Htemp as [-> _]. apply lookup_insert_eq.
Qed.

Lemma Unwrap_panic_leaves_file_witness :
  fst (Unwrap workingOS (lit "dir/page.tpl") danglingTemplate) = Panics
  ∧ files (snd (Unwrap workingOS (lit "dir/page.tpl") danglingTemplate))
      !! lit "/tmp/page42.tpl"
    = Some [].
Proof.
  eapply (Unwrap_panic_leaves_file workingOS (lit "dir/page.tpl")
            danglingTemplate _ _ (lit "a\" ++ [LF] ++ lit "b\")
            (mkFile (lit "/tmp/page42.tpl"))).
  - vm_compute. reflexivity.
  - vm_compute. reflexivity.
  - vm_compute. reflexivity.
Defined.

(** X18.  Unwrapping keeps the line numbers: whenever [Unwrap] returns no
    error, the file it returns the path of has as many lines as the source
    file. *)
Theorem Unwrap_keeps_line_count (os : OS) (filePath : gostring)
    (w w' : World) (res : results) :
  Unwrap os filePath w = (Returns res, w') →
  err res = None →
  ∃ text unwrapped : gostring,
    files w !! filePath = Some text
    ∧ files w' !! newFilePath res = Some unwrapped
    ∧ length (Split unwrapped LF) = length (Split text LF).
Proof.
  intros H Herr.
  destruct (Unwrap_without_error os filePath w w' res H Herr)
    as (text & unwrapped & Hf & Hu & _ & Hf').
  exists text, unwrapped. split; [done|]. split; [done|].
  apply unwrapLinesInString_returns_lines in Hu as (outl & Hu & _ & ->).
  by eapply unwraps_length.
Qed.

Lemma Unwrap_keeps_line_count_witness :
  ∃ text unwrapped : gostring,
    files oneTemplate !! lit "dir/page.tpl" = Some text
    ∧ files (snd (Unwrap workingOS (lit "dir/page.tpl") oneTemplate))
        !! lit "/tmp/page42.tpl"
      = Some unwrapped
    ∧ length (Split unwrapped LF) = length (Split text LF).
Proof.
  apply (Unwrap_keeps_line_count workingOS (lit "dir/page.tpl") oneTemplate
           (snd (Unwrap workingOS (lit "dir/page.tpl") oneTemplate))
           (mkResults (lit "/tmp/page42.tpl")
              (Some (os_Remove (lit "/tmp/page42.tpl"))) None)).
  - vm_compute. reflexivity.
  - reflexivity.
Defined.
